(** * Verification of escramer/minecraft-bot: search.py and bot.py

    [search.py] is a generic graph search parameterised by a fringe;
    [bot.py] models a bot in a block world whose simulated copy
    ([_ImaginaryBot]) keeps an overlay of block changes over the live
    world. *)

From stdpp Require Import base list gmap.
From Stdlib Require Import Sorting.Sorted ZArith Lia.

(* ================================================================== *)
(** ** search.py *)
(* ================================================================== *)

Module Search.

Section GraphSearch.
Context {state action : Type} `{EqDecision state}.

(** [SearchProblem]: start state, goal test and successor triples
    [(successor, action, stepCost)]. *)
Record SearchProblem := {
  getStartState : state;
  isGoalState : state -> bool;
  getSuccessors : state -> list (state * action * nat)
}.

(** A node [(state, action, total_cost, prev_node)]; the start node
    [(start, None, 0, None)] is [Root start]. *)
Inductive node :=
| Root (s : state)
| Child (s : state) (a : action) (total_cost : nat) (prev : node).

Definition node_state (n : node) : state :=
  match n with Root s => s | Child s _ _ _ => s end.

Definition node_cost (n : node) : nat :=
  match n with Root _ => 0 | Child _ _ g _ => g end.

(** [while node[3] is not None: rtn.append(node[1]); node = node[3]] *)
Fixpoint collect_actions (n : node) : list action :=
  match n with Root _ => [] | Child _ a _ p => a :: collect_actions p end.

(** [rtn.reverse(); return rtn] *)
Definition actions_of (n : node) : list action := rev (collect_actions n).

Definition state_eq_dec (x y : state) : {x = y} + {x <> y} := decide (x = y).

(** Modelled from the spec: the fringes [util.Stack], [util.Queue] and
    [util.PriorityQueueWithFunction] of [util.py] (imported by search.py).
    A fringe is the list of its nodes in pop order: a stack pops the last
    pushed node, a queue the first pushed one, and a priority queue a
    node of least priority, ties popped in push order (spec 4.4). *)
Inductive fringe :=
| Stack
| Queue
| PriorityQueueWithFunction (priority : node -> nat).

Fixpoint pq_insert (f : node -> nat) (x : node) (l : list node) : list node :=
  match l with
  | [] => [x]
  | y :: l' => if f y <=? f x then y :: pq_insert f x l' else x :: y :: l'
  end.

Definition push (fr : fringe) (x : node) (l : list node) : list node :=
  match fr with
  | Stack => x :: l
  | Queue => l ++ [x]
  | PriorityQueueWithFunction f => pq_insert f x l
  end.

(** [for successor, action, cost in problem.getSuccessors(state):
       fringe.push((successor, action, node[2] + cost, node))] *)
Definition push_successors (fr : fringe) (n : node)
    (succs : list (state * action * nat)) (l : list node) : list node :=
  fold_left (fun acc '(s', a, c) => push fr (Child s' a (node_cost n + c) n) acc)
    succs l.

(** Outcome of the search: a list of actions, the [Exception('No
    solution')] of an exhausted fringe, or the iteration bound [fuel]
    (standing for the unbounded [while True]) being hit. *)
Inductive outcome :=
| Found (acts : list action)
| NoSolution
| OutOfFuel.

(** The [while True] loop of [graph_search]; it also returns the closed
    set, i.e. the states expanded so far. *)
Fixpoint graph_search_loop (p : SearchProblem) (fr : fringe) (fuel : nat)
    (l : list node) (closed : list state) : outcome * list state :=
  match fuel with
  | O => (OutOfFuel, closed)
  | S fuel' =>
      match l with
      | [] => (NoSolution, closed)
      | n :: l' =>
          let s := node_state n in
          if isGoalState p s then (Found (actions_of n), closed)
          else if in_dec state_eq_dec s closed
          then graph_search_loop p fr fuel' l' closed
          else graph_search_loop p fr fuel'
                 (push_successors fr n (getSuccessors p s) l') (s :: closed)
      end
  end.

Definition graph_search (p : SearchProblem) (fr : fringe) (fuel : nat) : outcome :=
  fst (graph_search_loop p fr fuel (push fr (Root (getStartState p)) []) []).

Definition depthFirstSearch (p : SearchProblem) (fuel : nat) : outcome :=
  graph_search p Stack fuel.

Definition breadthFirstSearch (p : SearchProblem) (fuel : nat) : outcome :=
  graph_search p Queue fuel.

(** [priority_func(node) = node[2]] *)
Definition uniformCostSearch (p : SearchProblem) (fuel : nat) : outcome :=
  graph_search p (PriorityQueueWithFunction node_cost) fuel.

Definition nullHeuristic (s : state) (p : SearchProblem) : nat := 0.

(** [priority_func(node) = node[2] + heuristic(node[0], problem)] *)
Definition aStarSearch (p : SearchProblem) (heuristic : state -> SearchProblem -> nat)
    (fuel : nat) : outcome :=
  graph_search p
    (PriorityQueueWithFunction (fun n => node_cost n + heuristic (node_state n) p)) fuel.

(** Paths of the problem: [path p s acts t c] when the actions [acts]
    lead from [s] to [t] through successor triples of total cost [c]. *)
Inductive path (p : SearchProblem) : state -> list action -> state -> nat -> Prop :=
| path_nil s : path p s [] s 0
| path_cons s s' a c acts t k :
    In (s', a, c) (getSuccessors p s) -> path p s' acts t k ->
    path p s (a :: acts) t (c + k).


End GraphSearch.

Arguments SearchProblem : clear implicits.
Arguments node : clear implicits.
Arguments outcome : clear implicits.
Arguments fringe : clear implicits.

End Search.

(* ================================================================== *)
(** ** bot.py *)
(* ================================================================== *)

Module Bot.

Open Scope Z_scope.

(** A [_Vec3]: hashable, compared by its coordinates. *)
Abbreviation vec3 := (Z * Z * Z)%type.

Definition vadd (u v : vec3) : vec3 :=
  let '(x1, y1, z1) := u in let '(x2, y2, z2) := v in (x1 + x2, y1 + y2, z1 + z2).

Definition vx (v : vec3) : Z := let '(x, _, _) := v in x.
Definition vy (v : vec3) : Z := let '(_, y, _) := v in y.
Definition vz (v : vec3) : Z := let '(_, _, z) := v in z.

(** Block ids of [mcpi.block]. *)
Definition _AIR : Z := 0.
Definition _WATER : Z := 8.
Definition _LAVA : Z := 10.
Definition _BEDROCK : Z := 7.

Definition _DROP : Z := 2.
Definition _DROP_PLUS_1 : nat := 3.

(** [_adj_dirs()] *)
Definition _adj_dirs : list vec3 := [(1, 0, 0); (-1, 0, 0); (0, 0, 1); (0, 0, -1)].

(** The state of an [_ImaginaryBot]: [_pos], [_inventory] (block id to
    count) and [_changes] (the overlay of block changes). *)
Record bot := mkBot {
  _pos : vec3;
  _inventory : gmap Z Z;
  _changes : gmap vec3 Z
}.

(** Python exceptions raised along the paths modelled. *)
Inductive error :=
| InventoryEmpty                    (* Exception('Inventory empty') *)
| OnlyExcludedBlock (exclude : option Z)
                                    (* Exception('You requested not to place ...') *)
| KeyError
| TypeError
| AttributeError.

Inductive result (A : Type) := Ok (x : A) | Err (e : error).
Arguments Ok {A} x.
Arguments Err {A} e.

(** A method of the bot: it reads and updates the bot's fields and may
    raise; a raised exception keeps the updates made before it. *)
Definition M (A : Type) : Type := bot -> result A * bot.

Global Instance M_ret : MRet M := fun A x b => (Ok x, b).
Global Instance M_bind : MBind M := fun A B k m b =>
  match m b with
  | (Ok x, b') => k x b'
  | (Err e, b') => (Err e, b')
  end.

Definition raise {A : Type} (e : error) : M A := fun b => (Err e, b).
Definition get_bot : M bot := fun b => (Ok b, b).
Definition put_bot (b' : bot) : M unit := fun _ => (Ok tt, b').

(** Block sets used by the generators. *)
Definition in_blocks (blk : Z) (l : list Z) : bool := existsb (Z.eqb blk) l.

(** Python's [key != exclude] with [exclude] possibly [None]. *)
Definition ne_exclude (key : Z) (exclude : option Z) : bool :=
  match exclude with None => true | Some e => negb (key =? e) end.

(** Actions, [{'func': ..., 'args': ..., 'kwargs': ...}] in the source. *)
Inductive action :=
| Act_move (pos : vec3)
| Act_move_up (exclude : option Z)
| Act_move_down
| Act_mine (loc : vec3)
| Act_place (loc : vec3) (exclude : option Z) (block : option Z).

Section WithWorld.
(** [_MINECRAFT.getBlock]: the live world. *)
Variable world : vec3 -> Z.

(** [_ImaginaryBot._get_block] *)
Definition get_block (b : bot) (pos : vec3) : Z :=
  match _changes b !! pos with
  | Some blk => blk
  | None => world pos
  end.

Definition _get_block (pos : vec3) : M Z := fun b => (Ok (get_block b pos), b).

(** [_ImaginaryBot._set_block]: [self._changes[deepcopy(pos)] = block] *)
Definition _set_block (pos : vec3) (blk : Z) : M unit := fun b =>
  (Ok tt, mkBot (_pos b) (_inventory b) (<[pos := blk]> (_changes b))).

(** [_GenericBot._move] *)
Definition _move (pos : vec3) : M unit := fun b =>
  (Ok tt, mkBot pos (_inventory b) (_changes b)).

(** The first key of the inventory (in iteration order) that is not
    [exclude]: the [for ... else] of [_place]. *)
Definition first_key_not (inv : gmap Z Z) (exclude : option Z) : option Z :=
  head (filter (fun k => ne_exclude k exclude = true) (map fst (map_to_list inv))).

(** [self._get_block(p)] and [self._set_block(p, blk)] of an
    [_ImaginaryBot] at a position [p] computed with [+]: [_Vec3] inherits
    [Vec3.__add__], which returns a plain [mcpi.vec3.Vec3]; that class
    defines [__cmp__] but no [__hash__], so hashing [p] for
    [pos in self._changes] or [self._changes[deepcopy(pos)] = block]
    raises [TypeError] before any read or write. *)
Definition _get_block_sum (pos : vec3) : M Z := raise TypeError.

Definition _set_block_sum (pos : vec3) (blk : Z) : M unit := raise TypeError.

(** [_GenericBot._place], with the [self._set_block] call that fits the
    kind of [loc] passed. *)
Definition _place_with (set_block : vec3 -> Z -> M unit)
    (loc : vec3) (exclude : option Z) (block : option Z) : M unit :=
  b ← get_bot;
  if decide (_inventory b = ∅) then raise InventoryEmpty else
  blk ← match block with
        | Some k => mret k
        | None =>
            match first_key_not (_inventory b) exclude with
            | Some k => mret k
            | None => raise (OnlyExcludedBlock exclude)
            end
        end;
  match _inventory b !! blk with
  | None => raise KeyError
  | Some n =>
      put_bot (mkBot (_pos b)
                 (if n =? 1 then delete blk (_inventory b)
                  else <[blk := n - 1]> (_inventory b))
                 (_changes b)) ;;
      set_block loc blk
  end.

(** [_GenericBot._place] at a [_Vec3] location, the documented argument. *)
Definition _place (loc : vec3) (exclude : option Z) (block : option Z) : M unit :=
  _place_with _set_block loc exclude block.

(** [_GenericBot._add_to_inv] *)
Definition _add_to_inv (blk : Z) : M unit := fun b =>
  (Ok tt, mkBot (_pos b)
            (match _inventory b !! blk with
             | Some n => <[blk := n + 1]> (_inventory b)
             | None => <[blk := 1]> (_inventory b)
             end)
            (_changes b)).

(** [_GenericBot._move_down]: [new_pos] is computed with [+], so the
    read raises [TypeError]. *)
Definition _move_down : M unit :=
  b ← get_bot;
  let new_pos := vadd (_pos b) (0, -1, 0) in
  blk ← _get_block_sum new_pos;
  (if negb (blk =? _WATER) then _add_to_inv blk else mret tt) ;;
  _move new_pos.

(** [_GenericBot._move_up]: the location given to [_place] is computed
    with [+], so after the move and the inventory update [_place]'s
    [self._set_block] raises [TypeError]. *)
Definition _move_up (exclude : option Z) : M unit :=
  b ← get_bot;
  _move (vadd (_pos b) (0, 1, 0)) ;;
  b' ← get_bot;
  _place_with _set_block_sum (vadd (_pos b') (0, -1, 0)) exclude None.

(** [self.add_to_inv(block)]: [_GenericBot] has no attribute
    [add_to_inv] (the method is [_add_to_inv]), so the lookup raises. *)
Definition add_to_inv_attr (blk : Z) : M unit := raise AttributeError.

(** [_GenericBot._mine] *)
Definition _mine (loc : vec3) : M unit :=
  blk ← _get_block loc;
  add_to_inv_attr blk ;;
  _set_block loc _AIR.

(** [_GenericBot.take_action]: dispatch on ['func']. *)
Definition take_action (a : action) : M unit :=
  match a with
  | Act_move pos => _move pos
  | Act_move_up exclude => _move_up exclude
  | Act_move_down => _move_down
  | Act_mine loc => _mine loc
  | Act_place loc exclude block => _place loc exclude block
  end.

(** [_GenericBot.take_actions] (the pause between actions has no effect
    on the state). *)
Fixpoint take_actions (acts : list action) : M unit :=
  match acts with
  | [] => mret tt
  | a :: rest => take_action a ;; take_actions rest
  end.

(** [_GenericBot.contains] *)
Definition contains (b : bot) (blk : Z) : bool :=
  bool_decide (is_Some (_inventory b !! blk)).

(** The generators below read blocks at positions computed with [+].
    They follow the method bodies for a bot whose [_get_block] accepts
    such positions: the live [Bot], whose [_get_block] is
    [_MINECRAFT.getBlock(pos)], i.e. [get_block world b] with an empty
    overlay [_changes b].  On an [_ImaginaryBot] the first such read
    raises [TypeError] (see [_get_block_sum]); [_get_move_actions], and so
    [get_legal_actions], raises [TypeError] on both bots. *)

(** [_GenericBot._surrounded] *)
Definition _surrounded (b : bot) : bool :=
  forallb (fun d => get_block b (vadd (_pos b) d) =? _WATER) _adj_dirs.

(** The fall loop of [_side_moves]: [for _ in xrange(k)] starting at
    [pos], going down one cell per round. *)
Fixpoint fall_moves (b : bot) (pos : vec3) (k : nat) : list action :=
  match k with
  | O => []
  | S k' =>
      let blk := get_block b pos in
      if negb (blk =? _AIR) then
        (if negb (blk =? _LAVA) then [Act_move (vadd pos (0, 1, 0))] else [])
      else fall_moves b (vadd pos (0, -1, 0)) k'
  end.

(** The list [rtn] that the body of [_GenericBot._side_moves] builds. *)
Definition _side_moves_rtn (b : bot) (dir_ : vec3) (can_move_up : bool) : list action :=
  let base_pos := vadd (_pos b) dir_ in
  let base_block := get_block b base_pos in
  let empty_blocks := [_AIR; _WATER] in
  let climb :=
    if can_move_up && negb (in_blocks base_block [_AIR; _LAVA; _WATER]) then
      if forallb (fun v => in_blocks (get_block b (vadd base_pos v)) empty_blocks)
                 [(0, 1, 0); (0, 2, 0)]
      then [Act_move (vadd base_pos (0, 1, 0))] else []
    else [] in
  let fall :=
    if forallb (fun v => in_blocks (get_block b (vadd base_pos v)) empty_blocks)
               [(0, 0, 0); (0, 1, 0)]
    then fall_moves b (vadd base_pos (0, -1, 0)) _DROP_PLUS_1 else [] in
  climb ++ fall.

(** [_GenericBot._side_moves]: the body builds [rtn] but has no
    [return] statement, so the call evaluates to [None]. *)
Definition _side_moves (b : bot) (dir_ : vec3) (can_move_up : bool) : option (list action) :=
  let _ := _side_moves_rtn b dir_ can_move_up in None.

(** [_GenericBot._get_move_actions], for a given side-move function;
    [rtn.extend(None)] raises [TypeError]. *)
Definition _get_move_actions_with
    (side : bot -> vec3 -> bool -> option (list action))
    (b : bot) (exclude : option Z) : result (list action) :=
  let pos := _pos b in
  let can_move_up := in_blocks (get_block b (vadd pos (0, 2, 0))) [_AIR; _WATER] in
  let up :=
    if can_move_up then
      if _surrounded b then [Act_move (vadd pos (0, 1, 0))] else [Act_move_up exclude]
    else [] in
  let hidden_block := get_block b (vadd pos (0, -2, 0)) in
  let down :=
    if (hidden_block =? _WATER) || negb (in_blocks hidden_block [_AIR; _LAVA])
    then [Act_move_down] else [] in
  fold_left (fun acc d =>
               match acc with
               | Err e => Err e
               | Ok rtn => match side b d can_move_up with
                           | Some l => Ok (rtn ++ l)
                           | None => Err TypeError
                           end
               end) _adj_dirs (Ok (up ++ down)).

Definition _get_move_actions (b : bot) (exclude : option Z) : result (list action) :=
  _get_move_actions_with _side_moves b exclude.

(** [_GenericBot._get_mine_actions] *)
Definition _get_mine_actions (b : bot) : list action :=
  let dont_mine := [_AIR; _WATER; _LAVA] in
  let pos_above := vadd (_pos b) (0, 2, 0) in
  (if negb (in_blocks (get_block b pos_above) dont_mine) then [Act_mine pos_above] else []) ++
  flat_map (fun d =>
              let p0 := vadd (_pos b) d in
              let p1 := vadd p0 (0, 1, 0) in
              (if negb (in_blocks (get_block b p0) dont_mine) then [Act_mine p0] else []) ++
              (if negb (in_blocks (get_block b p1) dont_mine) then [Act_mine p1] else []))
           _adj_dirs.

(** [_GenericBot._has_blocks_to_place] *)
Definition _has_blocks_to_place (b : bot) (exclude : option Z) : bool :=
  existsb (fun k => ne_exclude k exclude) (map fst (map_to_list (_inventory b))).

(** [_GenericBot._can_place]: [_adj_dirs + [...]] adds a function and a
    list, which raises [TypeError] before any block is read. *)
Definition _can_place (b : bot) (loc : vec3) : result bool := Err TypeError.

(** [_GenericBot._get_placement_actions] *)
Definition _get_placement_actions (b : bot) (block : option Z) : result (list action) :=
  if negb (_has_blocks_to_place b block) then Ok [] else
  let dirs := (0, 2, 0) :: flat_map (fun d =>
                 [d; vadd d (0, 1, 0)] ++
                 (if in_blocks (get_block b (vadd (_pos b) d)) [_AIR; _WATER]
                  then [vadd d (0, -1, 0)] else [])) _adj_dirs in
  fold_left (fun acc d =>
               match acc with
               | Err e => Err e
               | Ok rtn =>
                   match _can_place b (vadd (_pos b) d) with
                   | Err e => Err e
                   | Ok true => Ok (rtn ++ [Act_place (vadd (_pos b) d) block None])
                   | Ok false => Ok rtn
                   end
               end) dirs (Ok []).

(** [_GenericBot.get_legal_actions], for a given move generator. *)
Definition get_legal_actions_with
    (moves : bot -> option Z -> result (list action))
    (b : bot) (block : option Z) : result (list action) :=
  match moves b block with
  | Err e => Err e
  | Ok mv =>
      let mn := _get_mine_actions b in
      match _get_placement_actions b block with
      | Err e => Err e
      | Ok pl => Ok (mv ++ mn ++ pl)
      end
  end.

Definition get_legal_actions (b : bot) (block : option Z) : result (list action) :=
  get_legal_actions_with _get_move_actions b block.

(** [_MineProblem]: the bot, the block location and the block id. *)
Record MineProblem := mkMineProblem {
  mp_bot : bot;
  mp_block_loc : vec3;
  mp_block_id : Z
}.

(** [_MineProblem.isGoalState] *)
Definition mine_isGoalState (prob : MineProblem) (s : bot) : bool :=
  contains s (mp_block_id prob).

(** [_MineProblem.getSuccessors], for a given move generator: every legal
    action is taken on a copy of the state; an exception raised by one of
    them propagates. *)
Definition mine_getSuccessors_with
    (moves : bot -> option Z -> result (list action))
    (s : bot) : result (list (bot * action * Z)) :=
  match get_legal_actions_with moves s None with
  | Err e => Err e
  | Ok acts =>
      fold_left (fun acc a =>
                   match acc with
                   | Err e => Err e
                   | Ok rtn =>
                       match take_action a s with
                       | (Ok _, s') => Ok (rtn ++ [(s', a, 1)])
                       | (Err e, _) => Err e
                       end
                   end) acts (Ok [])
  end.

End WithWorld.

(** [_manhattan] on the [(x, z)] planes. *)
Definition _manhattan (p1 p2 : Z * Z) : Z :=
  Z.abs (fst p1 - fst p2) + Z.abs (snd p1 - snd p2).

(** [_drops]: [dist / drop], plus one when there is a remainder. *)
Definition _drops (dist drop : Z) : Z :=
  dist / drop + (if negb (dist mod drop =? 0) then 1 else 0).

(** [_mine_heuristic] *)
Definition _mine_heuristic (b : bot) (prob : MineProblem) : Z :=
  if contains b (mp_block_id prob) then 0 else
  let bot_pos := _pos b in
  let dest_pos := mp_block_loc prob in
  let man_dist := _manhattan (vx bot_pos, vz bot_pos) (vx dest_pos, vz dest_pos) in
  let y_diff0 := vy bot_pos - vy dest_pos in
  let y_diff1 := if y_diff0 <? 0 then y_diff0 + 1 else y_diff0 in
  if y_diff1 =? 0 then man_dist else
  let drop := if 0 <? y_diff1 then _DROP else 1 in
  let y_diff := Z.abs y_diff1 in
  let drops := _drops y_diff drop in
  if drops <? man_dist then man_dist
  else if man_dist =? drops then man_dist + 1
  else if drop =? 1 then drops
  else if y_diff mod drop =? 1 then drops
  else drops + 1.

(** A Python object: identity plus the [_ImaginaryBot] fields. *)
Record py_obj := mkObj { obj_id : nat; obj_bot : bot }.

(** [_ImaginaryBot] defines no [__eq__]: [==] is [object]'s identity. *)
Definition py_eq (o1 o2 : py_obj) : bool := Nat.eqb (obj_id o1) (obj_id o2).

(** Elements of the frozenset hashed by [_ImaginaryBot.__hash__]: the
    position, the inventory pairs and the overlay pairs. *)
Abbreviation hash_elem := (vec3 + (Z * Z) + (vec3 * Z))%type.

Definition frozenset_of (b : bot) : gset hash_elem :=
  list_to_set ([inl (inl (_pos b))] ++
               map (fun kv => inl (inr kv)) (map_to_list (_inventory b)) ++
               map inr (map_to_list (_changes b))).

(** [_ImaginaryBot.__hash__]: [hash(frozenset(...))], for Python's hash
    of frozensets [hash_frozenset]. *)
Definition py_hash (hash_frozenset : gset hash_elem -> Z) (o : py_obj) : Z :=
  hash_frozenset (frozenset_of (obj_bot o)).

(** [state in closed] for a Python set: an element with the same hash
    that is the same object or compares equal. *)
Definition py_set_mem (hash_frozenset : gset hash_elem -> Z) (o : py_obj) (closed : list py_obj) : bool :=
  existsb (fun c => (py_hash hash_frozenset c =? py_hash hash_frozenset o) &&
                    (Nat.eqb (obj_id c) (obj_id o) || py_eq c o)) closed.

End Bot.

(* ================================================================== *)
(** ** Small concrete inputs *)
(* ================================================================== *)

Module Demo.
Import Search.

(** A unit-cost graph on states [0..6], the action being the state
    reached; [6] is the goal.  The optimal route is 0-1-3-5-6; the route
    0-2-4-3-5-6 reaches [3] one step later. *)
Definition demo_successors (s : nat) : list (nat * nat * nat) :=
  match s with
  | 0 => [(1, 1, 1); (2, 2, 1)]
  | 1 => [(3, 3, 1)]
  | 2 => [(4, 4, 1)]
  | 3 => [(5, 5, 1)]
  | 4 => [(3, 3, 1)]
  | 5 => [(6, 6, 1)]
  | _ => []
  end.

Definition demo : SearchProblem nat nat :=
  {| getStartState := 0; isGoalState := Nat.eqb 6; getSuccessors := demo_successors |}.

(** The same graph with no goal state. *)
Definition demo_nogoal : SearchProblem nat nat :=
  {| getStartState := 0; isGoalState := fun _ => false; getSuccessors := demo_successors |}.

(** The same graph whose start state is the goal. *)
Definition demo_at_goal : SearchProblem nat nat :=
  {| getStartState := 6; isGoalState := Nat.eqb 6; getSuccessors := demo_successors |}.

(** All states of the graph. *)
Definition demo_states : list nat := seq 0 7.

(** Exact remaining distance to the goal. *)
Definition demo_dist (s : nat) : nat :=
  match s with 0 => 4 | 1 => 3 | 2 => 4 | 3 => 2 | 4 => 3 | 5 => 1 | _ => 0 end.

(** A heuristic that is exact on state [1] and [0] elsewhere: admissible,
    but not consistent on the edge 0-1. *)
Definition demo_heuristic (s : nat) (p : SearchProblem nat nat) : nat :=
  if Nat.eqb s 1 then 3 else 0.

Definition demo_consistent_heuristic (s : nat) (p : SearchProblem nat nat) : nat :=
  demo_dist s.

End Demo.

(* ================================================================== *)
(** ** Proofs about search.py *)
(* ================================================================== *)

Module SearchFacts.
Import Search.

Section Facts.
Context {state action : Type} `{EqDecision state}.
Local Abbreviation SearchProblem := (SearchProblem state action).
Local Abbreviation node := (node state action).
Local Abbreviation fringe := (fringe state action).
Local Abbreviation outcome := (outcome action).

(** ** Facts about fringes, nodes and paths *)

Lemma pq_insert_In (f : node -> nat) (x y : node) (l : list node) :
  In y (pq_insert f x l) <-> y = x \/ In y l.
Proof.
  induction l as [|z l IH]; simpl; [intuition congruence|].
  destruct (f z <=? f x); simpl; rewrite ?IH; intuition congruence.
Qed.

Lemma push_In (fr : fringe) (x y : node) (l : list node) :
  In y (push fr x l) <-> y = x \/ In y l.
Proof.
  destruct fr; simpl.
  - intuition congruence.
  - rewrite in_app_iff; simpl; intuition congruence.
  - apply pq_insert_In.
Qed.

Lemma push_length (fr : fringe) (x : node) (l : list node) :
  length (push fr x l) = S (length l).
Proof.
  destruct fr as [| |f]; simpl.
  - reflexivity.
  - rewrite length_app; simpl; lia.
  - induction l as [|z l IH]; simpl; [reflexivity|].
    destruct (f z <=? f x); simpl; lia.
Qed.

Lemma push_successors_In (fr : fringe) (n y : node) succs (l : list node) :
  In y (push_successors fr n succs l) <->
  In y l \/ exists s' a c, In (s', a, c) succs /\ y = Child s' a (node_cost n + c) n.
Proof.
  unfold push_successors. revert l.
  induction succs as [|[[s' a] c] succs IH]; intros l; simpl.
  - split; [tauto|]. intros [H|(?&?&?&[]&_)]; exact H.
  - rewrite IH, push_In. split.
    + intros [[->|H]|(s2&a2&c2&Hin&->)]; eauto 10.
    + intros [H|(s2&a2&c2&[Heq|Hin]&->)]; [tauto| |eauto 10].
      injection Heq as -> -> ->. tauto.
Qed.

Lemma push_successors_length (fr : fringe) (n : node) succs (l : list node) :
  length (push_successors fr n succs l) = length l + length succs.
Proof.
  unfold push_successors. revert l.
  induction succs as [|[[s' a] c] succs IH]; intros l; simpl; [lia|].
  rewrite IH, push_length. lia.
Qed.

Lemma actions_of_Child (s : state) (a : action) (g : nat) (n : node) :
  actions_of (Child s a g n) = actions_of n ++ [a].
Proof. reflexivity. Qed.

Lemma path_snoc (p : SearchProblem) x acts y k z a c :
  path p x acts y k -> In (z, a, c) (getSuccessors p y) ->
  path p x (acts ++ [a]) z (k + c).
Proof.
  induction 1 as [s|s s' a' c' acts t k' Hin Hp IH]; intros Hz; simpl.
  - rewrite <- (Nat.add_0_r c). econstructor; [exact Hz|constructor].
  - rewrite <- Nat.add_assoc. econstructor; [exact Hin|auto].
Qed.

Lemma path_app (p : SearchProblem) x acts1 y k1 acts2 z k2 :
  path p x acts1 y k1 -> path p y acts2 z k2 -> path p x (acts1 ++ acts2) z (k1 + k2).
Proof.
  induction 1; intros; simpl; [assumption|].
  rewrite <- Nat.add_assoc. econstructor; eauto.
Qed.

(** Unit step costs: the cost of a path is its length. *)
Definition unit_costs (p : SearchProblem) : Prop :=
  forall s s' a c, In (s', a, c) (getSuccessors p s) -> c = 1.

Lemma path_unit_length (p : SearchProblem) x acts y k :
  unit_costs p -> path p x acts y k -> k = length acts.
Proof.
  intros Hu. induction 1 as [|s s' a c acts t k Hin _ IH]; simpl; [reflexivity|].
  rewrite (Hu _ _ _ _ Hin). lia.
Qed.

(** ** Soundness: a returned action list leads to a popped goal state *)

Section Soundness.
Variable p : SearchProblem.
Variable fr : fringe.

Definition nodes_valid (l : list node) : Prop :=
  forall m, In m l -> path p (getStartState p) (actions_of m) (node_state m) (node_cost m).

Lemma nodes_valid_expand (n : node) (l : list node) :
  nodes_valid (n :: l) ->
  nodes_valid (push_successors fr n (getSuccessors p (node_state n)) l).
Proof.
  intros Hv m Hm. apply push_successors_In in Hm as [Hm|(s'&a&c&Hin&->)].
  - apply Hv. now right.
  - simpl. rewrite actions_of_Child. eapply path_snoc; [|exact Hin].
    apply Hv. now left.
Qed.

Lemma loop_sound fuel (l : list node) (closed : list state) acts :
  nodes_valid l -> fst (graph_search_loop p fr fuel l closed) = Found acts ->
  exists t c, path p (getStartState p) acts t c /\ isGoalState p t = true.
Proof.
  revert l closed. induction fuel as [|fuel IH]; intros l closed Hv Hres;
    simpl in Hres; [discriminate|].
  destruct l as [|n l']; [discriminate|].
  destruct (isGoalState p (node_state n)) eqn:Hg.
  - injection Hres as <-. exists (node_state n), (node_cost n).
    split; [apply Hv; now left|exact Hg].
  - destruct (in_dec _ _ _).
    + eapply IH; [|exact Hres]. intros m Hm. apply Hv. now right.
    + eapply IH; [|exact Hres]. now apply nodes_valid_expand.
Qed.

Lemma graph_search_sound fuel acts :
  graph_search p fr fuel = Found acts ->
  exists t c, path p (getStartState p) acts t c /\ isGoalState p t = true.
Proof.
  apply loop_sound. intros m Hm. apply push_In in Hm as [->|[]].
  constructor.
Qed.

End Soundness.


(** ** Optimality of the returned action list

    The argument is the textbook one for graph search with a closed set
    and no reopening: the fringe always holds, for every path from the
    start, a node on the first not yet closed state of the path whose
    cost is at most the path's cost to that state.  It needs the
    fringe to pop a node of least [cost + h], with [h] consistent and
    [0] on goal states; [Q] is the fringe's own invariant that yields
    the least-priority pop. *)

Section Optimality.
Variable p : SearchProblem.
Variable fr : fringe.
Variable h : state -> nat.
Variable Q : list node -> Prop.

Let start := getStartState p.
Let f (m : node) : nat := node_cost m + h (node_state m).

Hypothesis h_goal : forall t, isGoalState p t = true -> h t = 0.
Hypothesis h_consistent :
  forall s s' a c, In (s', a, c) (getSuccessors p s) -> h s <= c + h s'.
Hypothesis Q_start : Q (push fr (Root start) []).
Hypothesis Q_pop : forall n l, Q (n :: l) -> Q l.
Hypothesis Q_expand : forall n l,
  Q (n :: l) -> Q (push_successors fr n (getSuccessors p (node_state n)) l).
Hypothesis Q_min : forall n l m, Q (n :: l) -> In m l -> f n <= f m.

Definition separated (l : list node) (closed : list state) : Prop :=
  (~ In start closed ->
     exists m, In m l /\ node_state m = start /\ node_cost m = 0) /\
  (forall s acts c s' a e,
     In s closed -> path p start acts s c -> In (s', a, e) (getSuccessors p s) ->
     ~ In s' closed -> exists m, In m l /\ node_state m = s' /\ node_cost m <= c + e).

Definition search_inv (l : list node) (closed : list state) : Prop :=
  Q l /\ nodes_valid p l /\ (forall s, In s closed -> isGoalState p s = false) /\
  separated l closed.

Lemma frontier_on_path (l : list node) (closed : list state) :
  separated l closed ->
  forall x acts t c, path p x acts t c ->
  forall acts0 c0, path p start acts0 x c0 ->
  (~ In x closed -> exists m, In m l /\ node_state m = x /\ node_cost m <= c0) ->
  ~ In t closed ->
  exists m c1 acts2 c2, In m l /\ ~ In (node_state m) closed /\ node_cost m <= c1 /\
    path p (node_state m) acts2 t c2 /\ c1 + c2 = c0 + c.
Proof.
  intros [_ Hsep]. induction 1 as [x|x x' a e acts t k Hin Hp IH];
    intros acts0 c0 Hp0 Hx Ht.
  - destruct (Hx Ht) as (m & Hm & Hst & Hc).
    exists m, c0, [], 0. rewrite Hst.
    repeat split; first [assumption | constructor | lia].
  - destruct (in_dec state_eq_dec x closed) as [Hcl|Hncl].
    + destruct (IH (acts0 ++ [a]) (c0 + e)) as (m & c1 & acts2 & c2 & H1 & H2 & H3 & H4 & H5).
      * eapply path_snoc; eauto.
      * intros Hn. eapply Hsep; eauto.
      * exact Ht.
      * exists m, c1, acts2, c2. repeat split; auto. lia.
    + destruct (Hx Hncl) as (m & Hm & Hst & Hc).
      exists m, c0, (a :: acts), (e + k). rewrite Hst.
      repeat split; first [assumption | econstructor; eauto | lia].
Qed.

Lemma h_path x acts t c : path p x acts t c -> h x <= c + h t.
Proof.
  induction 1 as [|s s' a c acts t k Hin _ IH]; [lia|].
  pose proof (h_consistent _ _ _ _ Hin). lia.
Qed.

Lemma frontier_bound (l : list node) (closed : list state) acts t c :
  search_inv l closed -> path p start acts t c -> ~ In t closed ->
  exists m, In m l /\ f m <= c + h t.
Proof.
  intros (_ & _ & _ & Hsep) Hp Ht.
  destruct (frontier_on_path l closed Hsep start acts t c Hp [] 0 (path_nil p start))
    as (m & c1 & acts2 & c2 & Hm & _ & Hc & Hp2 & Heq).
  - intros Hn. destruct Hsep as [H0 _]. destruct (H0 Hn) as (m & ? & ? & ?).
    exists m. repeat split; auto. lia.
  - exact Ht.
  - exists m. split; [exact Hm|]. unfold f.
    pose proof (h_path _ _ _ _ Hp2). lia.
Qed.

Lemma expand_optimal (n : node) (l : list node) (closed : list state) acts c :
  search_inv (n :: l) closed -> ~ In (node_state n) closed ->
  path p start acts (node_state n) c -> node_cost n <= c.
Proof.
  intros Hinv Hn Hp.
  destruct (frontier_bound _ _ _ _ _ Hinv Hp Hn) as (m & [<-|Hm] & Hf).
  - unfold f in Hf. lia.
  - destruct Hinv as (HQ & _). pose proof (Q_min _ _ _ HQ Hm). unfold f in *. lia.
Qed.

Lemma search_inv_pop (n : node) (l : list node) (closed : list state) :
  search_inv (n :: l) closed -> In (node_state n) closed -> search_inv l closed.
Proof.
  intros (HQ & Hv & Hg & H0 & Hsep) Hn. repeat split.
  - eauto.
  - intros m Hm. apply Hv. now right.
  - exact Hg.
  - intros Hs. destruct (H0 Hs) as (m & [<-|Hm] & Hst & Hc); [|eauto].
    exfalso. apply Hs. rewrite <- Hst. exact Hn.
  - intros s acts c s' a e Hs Hp Hin Hs'.
    destruct (Hsep s acts c s' a e Hs Hp Hin Hs') as (m & [<-|Hm] & Hst & Hc); [|eauto].
    exfalso. apply Hs'. rewrite <- Hst. exact Hn.
Qed.

Lemma search_inv_expand (n : node) (l : list node) (closed : list state) :
  search_inv (n :: l) closed -> ~ In (node_state n) closed ->
  isGoalState p (node_state n) = false ->
  search_inv (push_successors fr n (getSuccessors p (node_state n)) l)
             (node_state n :: closed).
Proof.
  intros Hinv Hn Hgoal. pose proof Hinv as (HQ & Hv & Hg & H0 & Hsep).
  repeat split.
  - now apply Q_expand.
  - now apply nodes_valid_expand.
  - intros s [<-|Hs]; auto.
  - intros Hs. destruct H0 as (m & [<-|Hm] & Hst & Hc).
    + intros Hc. apply Hs. now right.
    + exfalso. apply Hs. left. exact Hst.
    + exists m. repeat split; auto. apply push_successors_In. now left.
  - intros s acts c s' a e [<-|Hs] Hp Hin Hs'.
    + exists (Child s' a (node_cost n + e) n). repeat split.
      * apply push_successors_In. right. eauto.
      * pose proof (expand_optimal n l closed acts c Hinv Hn Hp). simpl. lia.
    + destruct (Hsep s acts c s' a e Hs Hp Hin) as (m & [<-|Hm] & Hst & Hc).
      * intros Hc. apply Hs'. now right.
      * exfalso. apply Hs'. left. exact Hst.
      * exists m. repeat split; auto. apply push_successors_In. now left.
Qed.

Definition optimal_result (o : outcome) : Prop :=
  match o with
  | Found acts =>
      exists t c, path p start acts t c /\ isGoalState p t = true /\
        forall acts' t' c', path p start acts' t' c' -> isGoalState p t' = true -> c <= c'
  | NoSolution => forall acts t c, path p start acts t c -> isGoalState p t = false
  | OutOfFuel => True
  end.

Lemma loop_optimal fuel (l : list node) (closed : list state) :
  search_inv l closed -> optimal_result (fst (graph_search_loop p fr fuel l closed)).
Proof.
  revert l closed. induction fuel as [|fuel IH]; intros l closed Hinv; simpl; [exact I|].
  destruct l as [|n l'].
  - simpl. intros acts t c Hp. destruct (isGoalState p t) eqn:Ht; [|reflexivity].
    exfalso. pose proof Hinv as (_ & _ & Hg & _).
    assert (Hnt : ~ In t closed) by (intros Hc; rewrite (Hg t Hc) in Ht; discriminate).
    destruct (frontier_bound [] closed acts t c Hinv Hp Hnt) as (m & [] & _).
  - destruct (isGoalState p (node_state n)) eqn:Hgn.
    + simpl. pose proof Hinv as (_ & Hv & Hg & _).
      exists (node_state n), (node_cost n). repeat split; [apply Hv; now left|exact Hgn|].
      intros acts' t' c' Hp Ht'.
      assert (Hnt : ~ In t' closed) by (intros Hc; rewrite (Hg t' Hc) in Ht'; discriminate).
      destruct (frontier_bound _ _ _ _ _ Hinv Hp Hnt) as (m & [<-|Hm] & Hf);
        unfold f in *; rewrite (h_goal _ Ht') in Hf.
      * lia.
      * destruct Hinv as (HQ & _). pose proof (Q_min _ _ _ HQ Hm). unfold f in *. lia.
    + destruct (in_dec _ _ _) as [Hc|Hc].
      * apply IH. eapply search_inv_pop; eauto.
      * apply IH. apply search_inv_expand; auto.
Qed.

Lemma graph_search_optimal fuel : optimal_result (graph_search p fr fuel).
Proof.
  apply loop_optimal. repeat split.
  - exact Q_start.
  - intros m Hm. apply push_In in Hm as [->|[]]. constructor.
  - intros s [].
  - intros _. exists (Root start). repeat split. apply push_In. now left.
  - intros s acts c s' a e [].
Qed.

(** *** Progress towards a reachable goal on unit step costs

    With unit step costs and a goal state [t_goal] at cost [d] from the
    start, every node popped before a goal state has cost at most [d].
    [tree_weight k s] counts the nodes of the search tree rooted at [s]
    down to depth [k]; the weight of the fringe, summed over its nodes of
    cost at most [d], drops with every iteration of the loop. *)
Hypothesis unit : unit_costs p.
Variable acts_goal : list action.
Variable t_goal : state.
Variable d : nat.
Hypothesis goal_path : path p start acts_goal t_goal d.
Hypothesis goal_t : isGoalState p t_goal = true.

Fixpoint tree_weight (k : nat) (s : state) : nat :=
  match k with
  | O => 1
  | S k' => S (sum_list_with (fun '(s', _, _) => tree_weight k' s') (getSuccessors p s))
  end.

Definition node_weight (m : node) : nat :=
  if node_cost m <=? d then tree_weight (d - node_cost m) (node_state m) else 0.

Lemma tree_weight_pos k s : 1 <= tree_weight k s.
Proof. destruct k; simpl; lia. Qed.

Lemma sum_list_with_perm {X : Type} (g : X -> nat) (l1 l2 : list X) :
  Permutation l1 l2 -> sum_list_with g l1 = sum_list_with g l2.
Proof. induction 1; simpl; lia. Qed.

Lemma push_perm (x : node) (l : list node) : Permutation (push fr x l) (x :: l).
Proof.
  destruct fr as [| |g]; simpl.
  - reflexivity.
  - symmetry. apply Permutation_cons_append.
  - induction l as [|y l IH]; simpl; [reflexivity|].
    destruct (g y <=? g x); [|reflexivity].
    etransitivity; [apply perm_skip, IH|]. apply perm_swap.
Qed.

Lemma push_successors_weight (n : node) succs (l : list node) :
  sum_list_with node_weight (push_successors fr n succs l) =
  sum_list_with node_weight l +
  sum_list_with (fun '(s', a, c) => node_weight (Child s' a (node_cost n + c) n)) succs.
Proof.
  unfold push_successors. revert l.
  induction succs as [|[[s' a] c] succs IH]; intros l; simpl; [lia|].
  rewrite IH, (sum_list_with_perm _ _ _ (push_perm _ _)). simpl. lia.
Qed.

Lemma children_weight (n : node) :
  node_cost n <= d ->
  S (sum_list_with (fun '(s', a, c) => node_weight (Child s' a (node_cost n + c) n))
       (getSuccessors p (node_state n))) <= node_weight n.
Proof.
  intros Hn.
  assert (Hu : forall s' a c, In (s', a, c) (getSuccessors p (node_state n)) -> c = 1)
    by (intros; eapply unit; eauto).
  unfold node_weight at 2. destruct (Nat.leb_spec (node_cost n) d) as [_|]; [|lia].
  destruct (d - node_cost n) as [|k] eqn:Hk.
  - enough (E : forall succs, (forall s' a c, In (s', a, c) succs -> c = 1) ->
      sum_list_with (fun '(s', a, c) => node_weight (Child s' a (node_cost n + c) n)) succs = 0)
      by (rewrite (E _ Hu); cbn [tree_weight]; lia).
    induction succs as [|[[s' a] c] succs IH]; intros Hs; cbn [sum_list_with]; [reflexivity|].
    rewrite IH by (intros; eapply Hs; right; eauto).
    rewrite (Hs s' a c (or_introl eq_refl)). unfold node_weight. cbn [node_cost].
    destruct (Nat.leb_spec (node_cost n + 1) d); lia.
  - enough (E : forall succs, (forall s' a c, In (s', a, c) succs -> c = 1) ->
      sum_list_with (fun '(s', a, c) => node_weight (Child s' a (node_cost n + c) n)) succs =
      sum_list_with (fun '(s', _, _) => tree_weight k s') succs)
      by (rewrite (E _ Hu); cbn [tree_weight]; lia).
    induction succs as [|[[s' a] c] succs IH]; intros Hs; cbn [sum_list_with]; [reflexivity|].
    rewrite IH by (intros; eapply Hs; right; eauto).
    rewrite (Hs s' a c (or_introl eq_refl)). unfold node_weight. cbn [node_cost node_state].
    destruct (Nat.leb_spec (node_cost n + 1) d); [|lia].
    replace (d - (node_cost n + 1)) with k by lia. reflexivity.
Qed.

Lemma loop_progress fuel (l : list node) (closed : list state) :
  search_inv l closed -> sum_list_with node_weight l < fuel ->
  fst (graph_search_loop p fr fuel l closed) <> OutOfFuel.
Proof.
  revert l closed. induction fuel as [|fuel IH]; intros l closed Hinv Hlt; [lia|].
  simpl. destruct l as [|n l']; [discriminate|].
  destruct (isGoalState p (node_state n)) eqn:Hgn; [discriminate|].
  assert (Hc : node_cost n <= d).
  { pose proof Hinv as (HQ & _ & Hg & _).
    assert (Hnt : ~ In t_goal closed)
      by (intros Hcl; rewrite (Hg t_goal Hcl) in goal_t; discriminate).
    destruct (frontier_bound _ _ _ _ _ Hinv goal_path Hnt) as (m & [<-|Hm] & Hf);
      unfold f in *; rewrite (h_goal _ goal_t) in Hf.
    - lia.
    - pose proof (Q_min _ _ _ HQ Hm). unfold f in *. lia. }
  assert (Hw : 1 <= node_weight n).
  { unfold node_weight. destruct (Nat.leb_spec (node_cost n) d); [apply tree_weight_pos|lia]. }
  simpl in Hlt. destruct (in_dec _ _ _) as [Hcl|Hcl].
  - apply IH; [eapply search_inv_pop; eauto|lia].
  - apply IH; [apply search_inv_expand; auto|].
    rewrite push_successors_weight. pose proof (children_weight n Hc). lia.
Qed.

Lemma graph_search_progress fuel :
  tree_weight d start < fuel -> graph_search p fr fuel <> OutOfFuel.
Proof.
  intros Hlt. apply loop_progress.
  - repeat split.
    + exact Q_start.
    + intros m Hm. apply push_In in Hm as [->|[]]. constructor.
    + intros s [].
    + intros _. exists (Root start). repeat split. apply push_In. now left.
    + intros s acts c s' a e [].
  - rewrite (sum_list_with_perm _ _ _ (push_perm _ _)). simpl.
    unfold node_weight. simpl. rewrite Nat.sub_0_r. unfold start in *. lia.
Qed.

End Optimality.


(** ** The three fringes pop a node of least priority *)

Lemma pq_insert_sorted (f : node -> nat) (x : node) (l : list node) :
  StronglySorted (fun a b => f a <= f b) l ->
  StronglySorted (fun a b => f a <= f b) (pq_insert f x l).
Proof.
  induction l as [|y l IH]; intros Hs; simpl.
  - repeat constructor.
  - apply StronglySorted_inv in Hs as [Hs Hy]. rewrite List.Forall_forall in Hy.
    destruct (f y <=? f x) eqn:Hyx.
    + apply Nat.leb_le in Hyx. constructor; [now apply IH|].
      apply List.Forall_forall. intros z Hz. apply pq_insert_In in Hz as [->|Hz]; auto.
    + apply Nat.leb_gt in Hyx. constructor; [constructor; [exact Hs|now apply List.Forall_forall]|].
      constructor; [lia|]. apply List.Forall_forall. intros z Hz. pose proof (Hy z Hz). lia.
Qed.

Lemma pq_push_successors_sorted (f : node -> nat) (n : node) succs (l : list node) :
  StronglySorted (fun a b => f a <= f b) l ->
  StronglySorted (fun a b => f a <= f b)
    (push_successors (PriorityQueueWithFunction f) n succs l).
Proof.
  unfold push_successors. revert l.
  induction succs as [|[[s' a] c] succs IH]; intros l Hs; simpl; [exact Hs|].
  apply IH. now apply pq_insert_sorted.
Qed.

Lemma StronglySorted_snoc {X : Type} (R : X -> X -> Prop) (l : list X) (x : X) :
  StronglySorted R l -> (forall y, In y l -> R y x) -> StronglySorted R (l ++ [x]).
Proof.
  induction l as [|y l IH]; intros Hs Hx; simpl.
  - repeat constructor.
  - apply StronglySorted_inv in Hs as [Hs Hy]. constructor.
    + apply IH; auto. intros z Hz. apply Hx. now right.
    + apply List.Forall_app. split; [exact Hy|]. constructor; [apply Hx; now left|constructor].
Qed.

(** Breadth-first fringe on unit costs: node costs are non-decreasing
    from front to back and differ by at most one. *)
Definition bfs_layered (l : list node) : Prop :=
  StronglySorted (fun a b => node_cost a <= node_cost b <= node_cost a + 1) l.

Lemma bfs_push_successors (p : SearchProblem) (n : node) (l : list node) :
  unit_costs p -> bfs_layered (n :: l) ->
  bfs_layered (push_successors Queue n (getSuccessors p (node_state n)) l).
Proof.
  intros Hu Hl. apply StronglySorted_inv in Hl as [Hl Hn]. rewrite List.Forall_forall in Hn.
  assert (Hsub : forall s' a c, In (s', a, c) (getSuccessors p (node_state n)) -> c = 1)
    by (intros; eapply Hu; eauto).
  unfold push_successors. revert l Hl Hn.
  induction (getSuccessors p (node_state n)) as [|[[s' a] c] succs IH];
    intros l Hl Hn; simpl; [exact Hl|].
  rewrite (Hsub s' a c) by (now left).
  apply IH.
  - intros; eapply Hsub; right; eauto.
  - apply StronglySorted_snoc; [exact Hl|]. intros y Hy. pose proof (Hn y Hy). simpl. lia.
  - intros y Hy. apply in_app_iff in Hy as [Hy|[<-|[]]]; [auto|]. simpl. lia.
Qed.

(** ** Termination on a finite state space

    [univ] lists every state reachable from the start.  The potential
    counts the fringe plus, for every state not yet closed, one plus the
    number of its successors; each loop iteration lowers it. *)

Section Termination.
Variable p : SearchProblem.
Variable univ : list state.
Hypothesis univ_start : In (getStartState p) univ.
Hypothesis univ_closed :
  forall s s' a c, In s univ -> In (s', a, c) (getSuccessors p s) -> In s' univ.

Fixpoint potential (closed : list state) (u : list state) : nat :=
  match u with
  | [] => 0
  | x :: u' =>
      (if in_dec state_eq_dec x closed then 0
       else S (length (getSuccessors p x))) + potential closed u'
  end.

Lemma potential_mono (s : state) (closed : list state) (u : list state) :
  potential (s :: closed) u <= potential closed u.
Proof.
  induction u as [|x u IH]; cbn [potential]; [lia|].
  destruct (in_dec state_eq_dec x (s :: closed)) as [Hx|Hx];
    destruct (in_dec state_eq_dec x closed) as [Hx'|Hx']; try lia.
  exfalso. apply Hx. now right.
Qed.

Lemma potential_close (s : state) (closed : list state) (u : list state) :
  ~ In s closed -> In s u ->
  potential (s :: closed) u + S (length (getSuccessors p s)) <= potential closed u.
Proof.
  intros Hs. induction u as [|x u IH]; cbn [potential In]; [tauto|]. intros Hin.
  destruct (state_eq_dec x s) as [->|Hne].
  - destruct (in_dec state_eq_dec s (s :: closed)) as [_|Hn]; [|exfalso; apply Hn; now left].
    destruct (in_dec state_eq_dec s closed) as [Hc|_]; [tauto|].
    pose proof (potential_mono s closed u). lia.
  - destruct Hin as [Heq|Hin]; [congruence|].
    specialize (IH Hin).
    destruct (in_dec state_eq_dec x (s :: closed)) as [Hx|Hx];
      destruct (in_dec state_eq_dec x closed) as [Hx'|Hx']; try lia.
    all: first [exfalso; apply Hx; now right | destruct Hx as [Hx|Hx]; [congruence|tauto]].
Qed.

Lemma loop_terminates (fr : fringe) fuel (l : list node) (closed : list state) :
  (forall m, In m l -> In (node_state m) univ) ->
  length l + potential closed univ < fuel ->
  fst (graph_search_loop p fr fuel l closed) <> OutOfFuel.
Proof.
  revert l closed. induction fuel as [|fuel IH]; intros l closed Hl Hlt; [lia|].
  simpl. destruct l as [|n l']; [discriminate|].
  destruct (isGoalState p (node_state n)); [discriminate|].
  destruct (in_dec _ _ _) as [Hc|Hc].
  - apply IH; [intros m Hm; apply Hl; now right|simpl in Hlt; lia].
  - apply IH.
    + intros m Hm. apply push_successors_In in Hm as [Hm|(s'&a&c&Hin&->)].
      * apply Hl. now right.
      * eapply univ_closed; [apply Hl; now left|exact Hin].
    + rewrite push_successors_length.
      assert (Hn : In (node_state n) univ) by (apply Hl; now left).
      pose proof (potential_close (node_state n) closed univ Hc Hn) as Hp.
      simpl in Hlt. lia.
Qed.

Lemma graph_search_terminates (fr : fringe) fuel :
  S (potential [] univ) < fuel -> graph_search p fr fuel <> OutOfFuel.
Proof.
  intros Hlt. apply loop_terminates.
  - intros m Hm. apply push_In in Hm as [->|[]]. exact univ_start.
  - rewrite push_length. simpl. lia.
Qed.

End Termination.


(** ** The search front ends *)

Lemma uniformCostSearch_optimal (p : SearchProblem) fuel :
  optimal_result p (uniformCostSearch p fuel).
Proof.
  apply (graph_search_optimal p (PriorityQueueWithFunction node_cost) (fun _ => 0)
           (StronglySorted (fun a b => node_cost a <= node_cost b))).
  - reflexivity.
  - intros; lia.
  - simpl. repeat constructor.
  - intros n l Hs. now apply StronglySorted_inv in Hs.
  - intros n l Hs. apply pq_push_successors_sorted. now apply StronglySorted_inv in Hs.
  - intros n l m Hs Hm. apply StronglySorted_inv in Hs as [_ Hs].
    rewrite List.Forall_forall in Hs. pose proof (Hs m Hm). lia.
Qed.

Lemma breadthFirstSearch_optimal (p : SearchProblem) fuel :
  unit_costs p -> optimal_result p (breadthFirstSearch p fuel).
Proof.
  intros Hu.
  apply (graph_search_optimal p Queue (fun _ => 0) bfs_layered).
  - reflexivity.
  - intros; lia.
  - simpl. repeat constructor.
  - intros n l Hs. now apply StronglySorted_inv in Hs.
  - intros n l Hs. now apply bfs_push_successors.
  - intros n l m Hs Hm. apply StronglySorted_inv in Hs as [_ Hs].
    rewrite List.Forall_forall in Hs. pose proof (Hs m Hm). lia.
Qed.

Ltac progress_side_goals :=
  solve [ eassumption | reflexivity | (intros; lia) | (simpl; repeat constructor)
        | (intros ? ? Hs; now apply StronglySorted_inv in Hs)
        | (intros ? ? Hs; apply pq_push_successors_sorted; now apply StronglySorted_inv in Hs)
        | (intros ? ? Hs; now apply bfs_push_successors)
        | (intros ? ? ? Hs Hm; apply StronglySorted_inv in Hs as [_ Hs];
           rewrite List.Forall_forall in Hs; pose proof (Hs _ Hm); lia) ].

(** On unit step costs, with a goal state at cost [d] from the start,
    uniform-cost and breadth-first search return once [fuel] exceeds the
    number of search-tree nodes down to depth [d]. *)
Lemma uniformCostSearch_progress (p : SearchProblem) acts t d fuel :
  unit_costs p -> path p (getStartState p) acts t d -> isGoalState p t = true ->
  tree_weight p d (getStartState p) < fuel -> uniformCostSearch p fuel <> OutOfFuel.
Proof.
  intros Hu Hp Ht Hlt.
  eapply (graph_search_progress p (PriorityQueueWithFunction node_cost) (fun _ => 0)
            (StronglySorted (fun a b => node_cost a <= node_cost b))).
  all: progress_side_goals.
Qed.

Lemma breadthFirstSearch_progress (p : SearchProblem) acts t d fuel :
  unit_costs p -> path p (getStartState p) acts t d -> isGoalState p t = true ->
  tree_weight p d (getStartState p) < fuel -> breadthFirstSearch p fuel <> OutOfFuel.
Proof.
  intros Hu Hp Ht Hlt.
  eapply (graph_search_progress p Queue (fun _ => 0) bfs_layered).
  all: progress_side_goals.
Qed.

(** A heuristic is consistent when it drops by at most the step cost
    along every successor triple. *)
Definition consistent (p : SearchProblem) (heuristic : state -> SearchProblem -> nat) : Prop :=
  forall s s' a c, In (s', a, c) (getSuccessors p s) -> heuristic s p <= c + heuristic s' p.

(** A heuristic is admissible when it never exceeds the cost of a path to
    a goal state. *)
Definition admissible (p : SearchProblem) (heuristic : state -> SearchProblem -> nat) : Prop :=
  forall s acts t c, path p s acts t c -> isGoalState p t = true -> heuristic s p <= c.

Lemma aStarSearch_optimal (p : SearchProblem) (heuristic : state -> SearchProblem -> nat) fuel :
  consistent p heuristic ->
  (forall t, isGoalState p t = true -> heuristic t p = 0) ->
  optimal_result p (aStarSearch p heuristic fuel).
Proof.
  intros Hc Hg.
  set (f := fun n : node => node_cost n + heuristic (node_state n) p).
  apply (graph_search_optimal p (PriorityQueueWithFunction f) (fun s => heuristic s p)
           (StronglySorted (fun a b => f a <= f b))).
  - exact Hg.
  - exact Hc.
  - simpl. repeat constructor.
  - intros n l Hs. now apply StronglySorted_inv in Hs.
  - intros n l Hs. apply pq_push_successors_sorted. now apply StronglySorted_inv in Hs.
  - intros n l m Hs Hm. apply StronglySorted_inv in Hs as [_ Hs].
    rewrite List.Forall_forall in Hs. exact (Hs m Hm).
Qed.

(** [acts] reaches a goal state, and no action list reaching a goal state
    is shorter. *)
Definition minimal_goal_actions (p : SearchProblem) (acts : list action) : Prop :=
  (exists t, path p (getStartState p) acts t (length acts) /\ isGoalState p t = true) /\
  forall acts' t', path p (getStartState p) acts' t' (length acts') ->
    isGoalState p t' = true -> length acts <= length acts'.

Lemma optimal_result_unit (p : SearchProblem) (o : outcome) acts :
  unit_costs p -> optimal_result p o -> o = Found acts -> minimal_goal_actions p acts.
Proof.
  intros Hu Ho ->. destruct Ho as (t & c & Hp & Ht & Hmin).
  pose proof (path_unit_length p _ _ _ _ Hu Hp) as ->.
  split; [eauto|]. intros acts' t' Hp' Ht'. exact (Hmin _ _ _ Hp' Ht').
Qed.

Lemma optimal_result_reachable (p : SearchProblem) (o : outcome) acts t c :
  optimal_result p o -> path p (getStartState p) acts t c -> isGoalState p t = true ->
  o <> NoSolution.
Proof.
  intros Ho Hp Ht ->. simpl in Ho. rewrite (Ho _ _ _ Hp) in Ht. discriminate.
Qed.

Lemma minimal_goal_actions_length (p : SearchProblem) acts1 acts2 :
  minimal_goal_actions p acts1 -> minimal_goal_actions p acts2 ->
  length acts1 = length acts2.
Proof.
  intros [(t1 & Hp1 & Ht1) H1] [(t2 & Hp2 & Ht2) H2].
  pose proof (H1 _ _ Hp2 Ht2). pose proof (H2 _ _ Hp1 Ht1). lia.
Qed.

End Facts.

End SearchFacts.

Module DemoFacts.
Import Search SearchFacts Demo.

Lemma demo_unit_costs : unit_costs demo.
Proof.
  intros s s' a c H.
  do 7 (destruct s as [|s]; simpl in H; [intuition congruence|]). destruct H.
Qed.

Lemma demo_nogoal_unit_costs : unit_costs demo_nogoal.
Proof. exact demo_unit_costs. Qed.

Lemma demo_states_closed (p : SearchProblem nat nat) :
  getSuccessors p = demo_successors ->
  forall s s' a c, In s demo_states -> In (s', a, c) (getSuccessors p s) -> In s' demo_states.
Proof.
  intros Hp s s' a c _ H. rewrite Hp in H. unfold demo_states. simpl.
  do 7 (destruct s as [|s]; simpl in H; [intuition congruence|]). destruct H.
Qed.

Lemma demo_dist_edge s s' a c :
  In (s', a, c) (demo_successors s) -> demo_dist s <= c + demo_dist s'.
Proof.
  intros H. do 7 (destruct s as [|s]; simpl in H; [intuition (subst; simplify_eq; simpl; lia)|]).
  destruct H.
Qed.

Lemma demo_dist_lower s acts t c :
  path demo s acts t c -> isGoalState demo t = true -> demo_dist s <= c.
Proof.
  induction 1 as [s|s s' a c acts t k Hin _ IH]; intros Ht.
  - unfold demo in Ht. cbn [isGoalState] in Ht. apply Nat.eqb_eq in Ht. subst. simpl. lia.
  - pose proof (demo_dist_edge _ _ _ _ Hin). specialize (IH Ht). lia.
Qed.

Lemma demo_heuristic_admissible : admissible demo demo_heuristic.
Proof.
  intros s acts t c Hp Ht. pose proof (demo_dist_lower _ _ _ _ Hp Ht).
  unfold demo_heuristic. destruct (Nat.eqb_spec s 1) as [->|]; simpl in *; lia.
Qed.

Lemma demo_consistent : consistent demo demo_consistent_heuristic.
Proof. intros s s' a c H. exact (demo_dist_edge _ _ _ _ H). Qed.

End DemoFacts.

(* ================================================================== *)
(** ** singleton.py *)
(* ================================================================== *)

Module Singleton.

Section Singleton.
Context {X E A : Type}.

(** The closure [rtn] returned by [singleton(func_or_class)], over the
    captured list [val]: [func_or_class] (its arguments are [args])
    returns a value ([inr]) or raises ([inl]); a raised exception
    propagates before [val.append] runs. *)
Definition rtn (func_or_class : X -> E + A) (val : list A) (args : X) : (E + A) * list A :=
  match val with
  | [] =>
      match func_or_class args with
      | inr v => (inr v, val ++ [v])
      | inl e => (inl e, val)
      end
  | v :: _ => (inr v, val)
  end.

(** Successive calls of the decorated function, threading [val]. *)
Fixpoint calls (func_or_class : X -> E + A) (val : list A) (argss : list X)
    : list (E + A) * list A :=
  match argss with
  | [] => ([], val)
  | args :: rest =>
      let '(r, val') := rtn func_or_class val args in
      let '(rs, val'') := calls func_or_class val' rest in
      (r :: rs, val'')
  end.

End Singleton.

End Singleton.

(* ================================================================== *)
(** ** Small worlds for bot.py *)
(* ================================================================== *)

Module BotDemo.
Import Bot.
Open Scope Z_scope.

(** A bot at the origin with an empty inventory and no changes. *)
Definition b0 : bot := mkBot (0, 0, 0) ∅ ∅.

(** Stone (id 1) below ground, a block of id 14 right under the bot,
    lava two cells above it, air elsewhere. *)
Definition c3_world (p : vec3) : Z :=
  if decide (p = (0, -1, 0)) then 14
  else if decide (p = (0, 2, 0)) then _LAVA
  else if vy p <? 0 then 1 else _AIR.

(** Mining block 14, recorded at [(5, -1, 0)]. *)
Definition c3_prob : MineProblem := mkMineProblem b0 (5, -1, 0) 14.

(** Stone below ground and at [(0, 3, 0)], air elsewhere. *)
Definition c7_world (p : vec3) : Z :=
  if decide (p = (0, 3, 0)) then 1
  else if vy p <? 0 then 1 else _AIR.

(** Stone below ground and next to the bot at [(1, 0, 0)]. *)
Definition c8_world (p : vec3) : Z :=
  if decide (p = (1, 0, 0)) then 1
  else if vy p <? 0 then 1 else _AIR.

End BotDemo.

(* ================================================================== *)
(** ** Proofs about bot.py *)
(* ================================================================== *)

Module BotFacts.
Import Bot.
Open Scope Z_scope.

Ltac unfold_m :=
  unfold mbind, M_bind, mret, M_ret, get_bot, put_bot, raise in *.

(** The inventory invariant: every stored count is positive. *)
Definition inv_ok (b : bot) : Prop := map_Forall (fun _ n => 0 < n) (_inventory b).

Lemma bind_inv {A B : Type} (m : M A) (k : A -> M B) (b : bot) :
  (forall b, inv_ok b -> inv_ok (snd (m b))) ->
  (forall x b, inv_ok b -> inv_ok (snd (k x b))) ->
  inv_ok b -> inv_ok (snd ((m ≫= k) b)).
Proof.
  intros Hm Hk Hb. unfold_m. specialize (Hm b Hb).
  destruct (m b) as [[x|e] b'] eqn:E; simpl in *; auto.
Qed.

Lemma get_bot_inv b : inv_ok b -> inv_ok (snd (get_bot b)).
Proof. auto. Qed.

Lemma get_block_inv world pos b : inv_ok b -> inv_ok (snd (_get_block world pos b)).
Proof. auto. Qed.

Lemma set_block_inv pos blk b : inv_ok b -> inv_ok (snd (_set_block pos blk b)).
Proof. auto. Qed.

Lemma move_inv pos b : inv_ok b -> inv_ok (snd (_move pos b)).
Proof. auto. Qed.

Lemma ret_inv {A : Type} (x : A) b : inv_ok b -> inv_ok (snd (mret (M := M) x b)).
Proof. auto. Qed.

Lemma add_to_inv_inv blk b : inv_ok b -> inv_ok (snd (_add_to_inv blk b)).
Proof.
  intros Hb. unfold inv_ok, _add_to_inv. simpl.
  destruct (_inventory b !! blk) as [n|] eqn:E; apply map_Forall_insert_2; auto.
  - pose proof (map_Forall_lookup_1 _ _ _ _ Hb E). simpl in *. lia.
  - lia.
Qed.

Lemma set_block_sum_inv pos blk b : inv_ok b -> inv_ok (snd (_set_block_sum pos blk b)).
Proof. auto. Qed.

Lemma place_with_inv (set_block : vec3 -> Z -> M unit) loc exclude block b :
  (forall pos blk b, inv_ok b -> inv_ok (snd (set_block pos blk b))) ->
  inv_ok b -> inv_ok (snd (_place_with set_block loc exclude block b)).
Proof.
  intros Hset Hb. unfold _place_with. unfold_m. simpl.
  destruct (decide (_inventory b = ∅)) as [Hemp|Hne]; simpl; [exact Hb|].
  destruct block as [k|]; [|destruct (first_key_not (_inventory b) exclude) as [k|]];
    simpl; try exact Hb;
    (destruct (_inventory b !! k) as [cnt|] eqn:E; simpl; [|exact Hb]);
    apply Hset; unfold inv_ok; simpl;
    (destruct (Z.eqb_spec cnt 1);
     [apply map_Forall_delete; exact Hb
     |apply map_Forall_insert_2; [|exact Hb];
      pose proof (map_Forall_lookup_1 _ _ _ _ Hb E); simpl in *; lia]).
Qed.

Lemma place_inv loc exclude block b : inv_ok b -> inv_ok (snd (_place loc exclude block b)).
Proof. apply place_with_inv, set_block_inv. Qed.

(** [_mine] raises [AttributeError] before touching the bot. *)
Lemma mine_raises world loc b : _mine world loc b = (Err AttributeError, b).
Proof. reflexivity. Qed.

Lemma take_action_inv world a b : inv_ok b -> inv_ok (snd (take_action world a b)).
Proof.
  intros Hb. destruct a as [pos|exclude| |loc|loc exclude block]; unfold take_action.
  - now apply move_inv.
  - unfold _move_up. apply bind_inv; [apply get_bot_inv| |exact Hb].
    intros x b1 H1. apply bind_inv; [apply move_inv| |exact H1].
    intros _ b2 H2. apply bind_inv; [apply get_bot_inv| |exact H2].
    intros y b3 H3. apply place_with_inv; [apply set_block_sum_inv|exact H3].
  - unfold _move_down. apply bind_inv; [apply get_bot_inv| |exact Hb].
    intros x b1 H1. apply bind_inv; [intros b2 H2; exact H2| |exact H1].
    intros blk b2 H2. apply bind_inv; [| |exact H2].
    + intros b3 H3. destruct (negb (blk =? _WATER));
        [now apply add_to_inv_inv|now apply (ret_inv tt)].
    + intros _ b3 H3. now apply move_inv.
  - rewrite mine_raises. exact Hb.
  - now apply place_inv.
Qed.

Lemma take_actions_inv world acts b : inv_ok b -> inv_ok (snd (take_actions world acts b)).
Proof.
  revert b. induction acts as [|a acts IH]; intros b Hb; simpl; [exact Hb|].
  apply bind_inv; [intros; now apply take_action_inv|intros _; apply IH|exact Hb].
Qed.

(** Shapes of the moves the side-move body builds: every one is a move
    to a cell in the column of [pos + dir_]. *)
Lemma fall_moves_shape world b k pos a :
  In a (fall_moves world b pos k) ->
  exists q, a = Act_move q /\ vx q = vx pos /\ vz q = vz pos.
Proof.
  revert pos. induction k as [|k IH]; intros pos Ha; simpl in Ha; [destruct Ha|].
  destruct (negb (get_block world b pos =? _AIR)).
  - destruct (negb (get_block world b pos =? _LAVA)); simpl in Ha; [|destruct Ha].
    destruct Ha as [<-|[]]. exists (vadd pos (0, 1, 0)).
    destruct pos as [[x y] z]; simpl. repeat split; lia.
  - destruct (IH _ Ha) as (q & -> & Hx & Hz). exists q.
    destruct pos as [[x y] z]; simpl in *. repeat split; lia.
Qed.

Lemma side_moves_rtn_shape world b d c a :
  In a (_side_moves_rtn world b d c) ->
  exists q, a = Act_move q /\ vx q = vx (_pos b) + vx d /\ vz q = vz (_pos b) + vz d.
Proof.
  unfold _side_moves_rtn. intros Ha. apply in_app_iff in Ha as [Ha|Ha].
  - repeat match goal with
           | H : context [if ?c then _ else _] |- _ => destruct c
           end; simpl in Ha; try tauto.
    destruct Ha as [<-|[]]. eexists. split; [reflexivity|].
    destruct (_pos b) as [[x y] z]; destruct d as [[dx dy] dz]; simpl. split; lia.
  - destruct (forallb _ _); [|destruct Ha].
    destruct (fall_moves_shape _ _ _ _ _ Ha) as (q & -> & Hx & Hz). exists q.
    destruct (_pos b) as [[x y] z]; destruct d as [[dx dy] dz]; simpl in *. split; [reflexivity|lia].
Qed.

(** The specification of remaining cost in [_MineProblem]: [mine_path s
    k] when a goal state is [k] successor steps from [s]. *)
Inductive mine_path (world : vec3 -> Z) (moves : bot -> option Z -> result (list action))
    (prob : MineProblem) : bot -> nat -> Prop :=
| mine_path_goal s : mine_isGoalState prob s = true -> mine_path world moves prob s 0
| mine_path_step s l s' a k :
    mine_getSuccessors_with world moves s = Ok l -> In (s', a, 1) l ->
    mine_path world moves prob s' k -> mine_path world moves prob s (S k).

End BotFacts.

(* ================================================================== *)
(** ** The claims *)
(* ================================================================== *)

Module Claims.
Import Search SearchFacts Demo DemoFacts.




(** C6 (confirmed).  The search returns an action list only after popping
    a goal state: the list leads from the start to a goal state.  When no
    goal state is reachable it never returns an action list, and on a
    finite state space (a list [univ] of states closed under successors)
    it ends with "No solution", whatever the fringe. *)
Theorem C6_no_goal_no_solution {state action : Type} `{EqDecision state}
    (p : SearchProblem state action) (fr : fringe state action) :
  (forall fuel acts, graph_search p fr fuel = Found acts ->
     exists t c, path p (getStartState p) acts t c /\ isGoalState p t = true) /\
  ((forall acts t c, path p (getStartState p) acts t c -> isGoalState p t = false) ->
   (forall fuel acts, graph_search p fr fuel <> Found acts) /\
   (forall univ, In (getStartState p) univ ->
      (forall s s' a c, In s univ -> In (s', a, c) (getSuccessors p s) -> In s' univ) ->
      forall fuel, S (potential p [] univ) < fuel -> graph_search p fr fuel = NoSolution)).
Proof.
  split; [intros; eapply graph_search_sound; eauto|].
  intros Hno.
  assert (Hnf : forall fuel acts, graph_search p fr fuel <> Found acts).
  { intros fuel acts Hf. destruct (graph_search_sound p fr fuel acts Hf) as (t & c & Hp & Ht).
    rewrite (Hno _ _ _ Hp) in Ht. discriminate. }
  split; [exact Hnf|].
  intros univ Hs Hcl fuel Hlt.
  pose proof (graph_search_terminates p univ Hs Hcl fr fuel Hlt) as Hterm.
  destruct (graph_search p fr fuel) eqn:E; [|reflexivity|contradiction].
  exfalso. exact (Hnf fuel acts E).
Qed.

Lemma C6_no_goal_no_solution_witness :
  (forall acts t c, path demo_nogoal 0 acts t c -> isGoalState demo_nogoal t = false) /\
  graph_search demo_nogoal Queue 100 = NoSolution.
Proof.
  split; [reflexivity|].
  apply (proj2 (proj2 (C6_no_goal_no_solution demo_nogoal Queue) (fun _ _ _ _ => eq_refl))
           demo_states).
  - simpl. tauto.
  - apply demo_states_closed. reflexivity.
  - vm_compute. lia.
Defined.

(** C10 (confirmed).  Whatever the fringe, when the start state is a goal
    state the first pop returns the empty action list, with nothing
    expanded (the closed set is still empty); and replaying the empty
    action list leaves a bot unchanged. *)
Theorem C10_start_goal_empty_plan {state action : Type} `{EqDecision state}
    (p : SearchProblem state action) (fr : fringe state action) (fuel : nat) :
  isGoalState p (getStartState p) = true -> (0 < fuel)%nat ->
  graph_search_loop p fr fuel (push fr (Root (getStartState p)) []) [] = (Found [], []) /\
  graph_search p fr fuel = Found [] /\
  (forall world b, Bot.take_actions world [] b = (Bot.Ok tt, b)).
Proof.
  intros Hg Hf. destruct fuel as [|fuel]; [lia|].
  assert (Hl : graph_search_loop p fr (S fuel) (push fr (Root (getStartState p)) []) [] =
               (Found [], [])).
  { destruct fr; simpl; rewrite Hg; reflexivity. }
  split; [exact Hl|]. split; [unfold graph_search; rewrite Hl; reflexivity|].
  intros world b. reflexivity.
Qed.

Lemma C10_start_goal_empty_plan_witness :
  graph_search demo_at_goal Stack 1 = Found [].
Proof.
  exact (proj1 (proj2 (C10_start_goal_empty_plan demo_at_goal Stack 1 eq_refl ltac:(lia)))).
Defined.

Import Bot BotFacts BotDemo.
Open Scope Z_scope.

(** C1 (confirmed).  [_get_block] of an [_ImaginaryBot] reads the
    overlay [_changes] first: on an entry for [P] it returns that entry,
    whatever the live world; without one it returns the live block; and
    after [_set_block P v] it reads [v]. *)
Theorem C1_overlay_shadows (world : vec3 -> Z) (b : bot) (P : vec3) :
  (forall v, _changes b !! P = Some v ->
     forall world', _get_block world' P b = (Ok v, b)) /\
  (_changes b !! P = None -> _get_block world P b = (Ok (world P), b)) /\
  (forall v, fst (_get_block world P (snd (_set_block P v b))) = Ok v).
Proof.
  split; [|split].
  - intros v H world'. unfold _get_block, get_block. rewrite H. reflexivity.
  - intros H. unfold _get_block, get_block. rewrite H. reflexivity.
  - intros v. simpl. unfold get_block. simpl. rewrite lookup_insert_eq. reflexivity.
Qed.

Lemma C1_overlay_shadows_witness :
  _get_block c3_world (0, -1, 0) (mkBot (0, 0, 0) ∅ {[(0, -1, 0) := _AIR]}) =
  (Ok _AIR, mkBot (0, 0, 0) ∅ {[(0, -1, 0) := _AIR]}).
Proof.
  exact (proj1 (C1_overlay_shadows c3_world (mkBot (0, 0, 0) ∅ {[(0, -1, 0) := _AIR]}) (0, -1, 0))
           _AIR eq_refl c3_world).
Defined.

(** C3 (confirmed).  [_mine_heuristic] is 0 on every goal state (the
    inventory holds the target block id), never negative, and never
    above the number of [_MineProblem.getSuccessors] steps from a state
    to a goal state.  The successors raise [TypeError] for every state
    (see [_side_moves]), so a goal state is reached only in 0 steps. *)
Theorem C3_mine_heuristic_admissible :
  (forall prob s, mine_isGoalState prob s = true -> _mine_heuristic s prob = 0) /\
  (forall prob s, 0 <= _mine_heuristic s prob) /\
  (forall world prob s k, mine_path world (_get_move_actions world) prob s k ->
     _mine_heuristic s prob <= Z.of_nat k).
Proof.
  assert (Hg : forall prob s, mine_isGoalState prob s = true -> _mine_heuristic s prob = 0).
  { intros prob s H. unfold _mine_heuristic. unfold mine_isGoalState in H. rewrite H. reflexivity. }
  split; [exact Hg|]. split.
  - intros prob s. unfold _mine_heuristic, _drops, _manhattan, _DROP.
    destruct (contains s (mp_block_id prob)); [lia|].
    cbv zeta.
    repeat match goal with |- context [if ?c then _ else _] => destruct c end;
    try lia;
    match goal with
    | |- context [Z.abs ?x / ?d] =>
        pose proof (Z.div_pos (Z.abs x) d (Z.abs_nonneg x) ltac:(lia)); lia
    end.
  - intros world prob s k Hp. destruct Hp as [s Hs|s l s' a k Hl _ _].
    + rewrite (Hg prob s Hs). reflexivity.
    + assert (He : mine_getSuccessors_with world (_get_move_actions world) s = Err TypeError)
        by reflexivity.
      rewrite He in Hl. discriminate.
Qed.

Lemma C3_mine_heuristic_admissible_witness :
  _mine_heuristic (mkBot (0, -1, 0) {[14 := 1]} ∅) c3_prob = 0 /\
  _mine_heuristic (mkBot (0, -1, 0) {[14 := 1]} ∅) c3_prob <= Z.of_nat 0.
Proof.
  split.
  - exact (proj1 C3_mine_heuristic_admissible c3_prob (mkBot (0, -1, 0) {[14 := 1]} ∅) eq_refl).
  - exact (proj2 (proj2 C3_mine_heuristic_admissible) c3_world c3_prob _ 0%nat
             (mine_path_goal c3_world (_get_move_actions c3_world) c3_prob
                (mkBot (0, -1, 0) {[14 := 1]} ∅) eq_refl)).
Defined.

(** C4 (corrected).  With an empty inventory, [_place] raises
    [Exception('Inventory empty')] whatever [exclude] and [block]; with
    an inventory holding only the excluded block id and no forced
    [block], it raises the "only excluded block" exception.  In both
    cases the bot (position, inventory, overlay) is left as it was.  A
    forced [block] skips the exclusion: forcing the excluded id [X]
    while the inventory holds some [X] succeeds and writes [X] at the
    location. *)
Theorem C4_place_error_no_mutation :
  (forall loc exclude block b, _inventory b = ∅ ->
     _place loc exclude block b = (Err InventoryEmpty, b)) /\
  (forall loc X n b, _inventory b = {[X := n]} ->
     _place loc (Some X) None b = (Err (OnlyExcludedBlock (Some X)), b)) /\
  (forall loc X n b, _inventory b !! X = Some n ->
     exists b', _place loc (Some X) (Some X) b = (Ok tt, b') /\ _changes b' !! loc = Some X).
Proof.
  split; [|split].
  - intros loc exclude block b H. unfold _place, _place_with. unfold_m. simpl.
    destruct (decide (_inventory b = ∅)) as [_|Hne]; [reflexivity|contradiction].
  - intros loc X n b H. unfold _place, _place_with. unfold_m. simpl.
    destruct (decide (_inventory b = ∅)) as [He|_].
    { rewrite H in He. exfalso. exact (map_non_empty_singleton X n He). }
    unfold first_key_not. rewrite H, map_to_list_singleton. simpl.
    rewrite filter_cons_False; [reflexivity|].
    rewrite Z.eqb_refl. simpl. discriminate.
  - intros loc X n b H. unfold _place, _place_with. unfold_m. simpl.
    destruct (decide (_inventory b = ∅)) as [He|_].
    { rewrite He, lookup_empty in H. discriminate. }
    simpl. rewrite H. eexists. split; [reflexivity|]. simpl. apply lookup_insert_eq.
Qed.

Lemma C4_place_error_no_mutation_witness :
  _place (1, 0, 0) (Some 14) None (mkBot (0, 0, 0) {[14 := 3]} ∅) =
  (Err (OnlyExcludedBlock (Some 14)), mkBot (0, 0, 0) {[14 := 3]} ∅) /\
  exists b', _place (1, 0, 0) (Some 14) (Some 14) (mkBot (0, 0, 0) {[14 := 3]} ∅) = (Ok tt, b') /\
    _changes b' !! (1, 0, 0) = Some 14.
Proof.
  split.
  - exact (proj1 (proj2 C4_place_error_no_mutation) (1, 0, 0) 14 3
             (mkBot (0, 0, 0) {[14 := 3]} ∅) eq_refl).
  - exact (proj2 (proj2 C4_place_error_no_mutation) (1, 0, 0) 14 3
             (mkBot (0, 0, 0) {[14 := 3]} ∅) eq_refl).
Defined.

(** C4, counterexample: when a [block] is forced, [exclude] is ignored:
    with the inventory [{14: 1}], placing the forced, excluded block 14
    succeeds, removes 14 from the inventory and writes it into the
    overlay. *)
Lemma C4_forced_excluded_block_placed :
  _place (1, 0, 0) (Some 14) (Some 14) (mkBot (0, 0, 0) {[14 := 1]} ∅) =
  (Ok tt, mkBot (0, 0, 0) ∅ {[(1, 0, 0) := 14]}) /\
  ~ (forall loc X n block b, _inventory b = {[X := n]} ->
       exists e, _place loc (Some X) block b = (Err e, b)).
Proof.
  assert (Hp : _place (1, 0, 0) (Some 14) (Some 14) (mkBot (0, 0, 0) {[14 := 1]} ∅) =
               (Ok tt, mkBot (0, 0, 0) ∅ {[(1, 0, 0) := 14]})) by reflexivity.
  split; [exact Hp|].
  intros H. destruct (H (1, 0, 0) 14 1 (Some 14) (mkBot (0, 0, 0) {[14 := 1]} ∅) eq_refl) as [e He].
  pose proof (eq_trans (eq_sym He) Hp) as Hc. discriminate Hc.
Qed.

(** C5 (confirmed).  Every action ([_move], [_move_up], [_move_down],
    [_mine], [_place]) and every sequence of actions keeps all inventory
    counts positive, also when it raises.  A successful [_place] removes
    the placed id when its count is 1 and decrements it otherwise, other
    ids untouched; [_add_to_inv] increments the count of the id, or
    stores 1 for a new id, other ids untouched. *)
Theorem C5_inventory_positive :
  (forall world a b, inv_ok b -> inv_ok (snd (take_action world a b))) /\
  (forall world acts b, inv_ok b -> inv_ok (snd (take_actions world acts b))) /\
  (forall loc exclude block b b', _place loc exclude block b = (Ok tt, b') ->
     exists k n, _inventory b !! k = Some n /\
       (n = 1 -> _inventory b' !! k = None) /\
       (n <> 1 -> _inventory b' !! k = Some (n - 1)) /\
       (forall k', k' <> k -> _inventory b' !! k' = _inventory b !! k')) /\
  (forall blk b,
     _inventory (snd (_add_to_inv blk b)) !! blk =
       Some (match _inventory b !! blk with Some n => n + 1 | None => 1 end) /\
     (forall k', k' <> blk -> _inventory (snd (_add_to_inv blk b)) !! k' = _inventory b !! k')).
Proof.
  split; [exact take_action_inv|]. split; [exact take_actions_inv|]. split.
  - intros loc exclude block b b' H. unfold _place, _place_with in H. unfold_m. simpl in H.
    destruct (decide (_inventory b = ∅)); [discriminate|].
    assert (Hk : forall k, match _inventory b !! k with
                           | Some n => put_bot (mkBot (_pos b)
                                         (if n =? 1 then delete k (_inventory b)
                                          else <[k := n - 1]> (_inventory b)) (_changes b)) ;;
                                       _set_block loc k
                           | None => raise KeyError
                           end b = (Ok tt, b') ->
                 exists k n, _inventory b !! k = Some n /\
                   (n = 1 -> _inventory b' !! k = None) /\
                   (n <> 1 -> _inventory b' !! k = Some (n - 1)) /\
                   (forall k', k' <> k -> _inventory b' !! k' = _inventory b !! k')).
    { intros k Hk. destruct (_inventory b !! k) as [cnt|] eqn:E; [|discriminate].
      unfold_m. simpl in Hk. injection Hk as <-. exists k, cnt. simpl.
      split; [exact E|].
      destruct (Z.eqb_spec cnt 1) as [Heq|Hne].
      - split; [intros _; apply lookup_delete_eq|]. split; [intros; lia|].
        intros k' Hk'. apply lookup_delete_ne. congruence.
      - split; [intros; lia|]. split; [intros _; apply lookup_insert_eq|].
        intros k' Hk'. apply lookup_insert_ne. congruence. }
    destruct block as [k|]; [exact (Hk k H)|].
    destruct (first_key_not (_inventory b) exclude) as [k|]; [exact (Hk k H)|discriminate].
  - intros blk b. simpl. split.
    + destruct (_inventory b !! blk); apply lookup_insert_eq.
    + intros k' Hne. destruct (_inventory b !! blk); now apply lookup_insert_ne.
Qed.

Lemma C5_inventory_positive_witness :
  inv_ok (mkBot (0, 0, 0) {[14 := 2]} ∅) /\
  inv_ok (snd (take_action c8_world (Act_place (0, 2, 0) None None) (mkBot (0, 0, 0) {[14 := 2]} ∅))).
Proof.
  assert (H : inv_ok (mkBot (0, 0, 0) {[14 := 2]} ∅))
    by (unfold inv_ok; simpl; apply map_Forall_singleton; lia).
  split; [exact H|].
  exact (proj1 C5_inventory_positive c8_world (Act_place (0, 2, 0) None None) _ H).
Defined.

(** C7 (code bug).  [_side_moves] builds its list [rtn] but has no
    [return], so it returns [None] and [rtn.extend(None)] in
    [_get_move_actions] raises [TypeError]: for every bot the move
    generator raises, and so does [get_legal_actions], and no up-move is
    ever offered.  In [c7_world] the cell above the bot's head is air and
    the cell above that one is stone, yet the generator raises all the
    same. *)
Theorem C7_move_actions_raise :
  (forall world b d c, _side_moves world b d c = None) /\
  (forall world b exclude, _get_move_actions world b exclude = Err TypeError) /\
  get_block c7_world b0 (vadd (_pos b0) (0, 2, 0)) = _AIR /\
  get_block c7_world b0 (vadd (_pos b0) (0, 3, 0)) = 1 /\
  get_legal_actions c7_world b0 None = Err TypeError.
Proof.
  split; [reflexivity|]. split; [reflexivity|].
  split; [reflexivity|]. split; reflexivity.
Qed.

(** C8 (code bug).  [_mine] calls [self.add_to_inv], which the bot does
    not have: every mine action raises [AttributeError] after reading the
    block and before any change, although [_get_mine_actions] offers it,
    e.g. next to the stone of [c8_world]. *)
Theorem C8_mine_raises_attribute_error :
  (forall world loc b, take_action world (Act_mine loc) b = (Err AttributeError, b)) /\
  In (Act_mine (1, 0, 0)) (_get_mine_actions c8_world b0) /\
  take_action c8_world (Act_mine (1, 0, 0)) b0 = (Err AttributeError, b0).
Proof.
  split; [intros; apply mine_raises|]. split; [left; reflexivity|]. reflexivity.
Qed.

(** C9 (code bug).  [_ImaginaryBot] defines [__hash__] by content but no
    [__eq__]: two distinct objects with the same position, inventory and
    overlay have the same hash, yet compare unequal, and a set holding one
    does not contain the other. *)
Theorem C9_equality_is_identity (hash_frozenset : gset hash_elem -> Z) (b : bot) :
  let o1 := mkObj 1 b in
  let o2 := mkObj 2 b in
  obj_bot o1 = obj_bot o2 /\
  py_eq o1 o2 = false /\
  py_hash hash_frozenset o1 = py_hash hash_frozenset o2 /\
  py_set_mem hash_frozenset o2 [o1] = false.
Proof.
  simpl. split; [reflexivity|]. split; [reflexivity|]. split; [reflexivity|].
  unfold py_set_mem. simpl. destruct (_ =? _); reflexivity.
Qed.

End Claims.

(* ================================================================== *)
(** ** Further facts about bot.py, search.py and singleton.py *)
(* ================================================================== *)

Module ExtraFacts.
Import Bot BotFacts.
Open Scope Z_scope.

Ltac vec_eq :=
  repeat match goal with v : vec3 |- _ => destruct v as [[? ?] ?] end;
  simpl; f_equal; [f_equal|]; lia.

Lemma vadd_vadd (p u v : vec3) : vadd (vadd p u) v = vadd p (vadd u v).
Proof. destruct p as [[? ?] ?], u as [[? ?] ?], v as [[? ?] ?]; simpl; f_equal; [f_equal|]; lia. Qed.

Lemma vadd_zero (p : vec3) : vadd p (0, 0, 0) = p.
Proof. destruct p as [[? ?] ?]; simpl; f_equal; [f_equal|]; lia. Qed.

(** [existsb] against the [for ... else] of [_place]. *)
Lemma existsb_head_filter (f : Z -> bool) (l : list Z) :
  existsb f l = true <-> is_Some (head (filter (fun k => f k = true) l)).
Proof.
  induction l as [|x l IH]; simpl.
  - split; [discriminate|intros [? H]; discriminate].
  - rewrite filter_cons. destruct (decide (f x = true)) as [Ef|Ef]; simpl.
    + rewrite Ef. simpl. split; [eauto|reflexivity].
    + apply not_true_is_false in Ef. rewrite Ef. exact IH.
Qed.

Lemma head_filter_In (f : Z -> bool) (l : list Z) k :
  head (filter (fun k => f k = true) l) = Some k -> In k l /\ f k = true.
Proof.
  induction l as [|x l IH]; simpl; [discriminate|].
  rewrite filter_cons. destruct (decide (f x = true)); simpl.
  - intros H; injection H as <-. auto.
  - intros H. destruct (IH H). auto.
Qed.

Lemma first_key_not_spec inv exclude k :
  first_key_not inv exclude = Some k ->
  is_Some (inv !! k) /\ ne_exclude k exclude = true.
Proof.
  unfold first_key_not. intros H. apply head_filter_In in H as [Hin Hne].
  split; [|exact Hne].
  apply in_map_iff in Hin as ([k' v] & <- & Hin). simpl.
  exists v. apply elem_of_map_to_list. apply list_elem_of_In. exact Hin.
Qed.

Lemma has_blocks_first_key b exclude :
  _has_blocks_to_place b exclude = true <-> is_Some (first_key_not (_inventory b) exclude).
Proof. apply existsb_head_filter. Qed.

Lemma has_blocks_nonempty b exclude :
  _has_blocks_to_place b exclude = true -> _inventory b <> ∅.
Proof.
  unfold _has_blocks_to_place. intros H He. rewrite He, map_to_list_empty in H.
  discriminate.
Qed.

(** A successful [_place]: the block placed, where it went, and what
    did not change. *)
Lemma place_success world loc exclude block b b' :
  _place loc exclude block b = (Ok tt, b') ->
  exists k, _pos b' = _pos b /\ is_Some (_inventory b !! k) /\
    get_block world b' loc = k /\
    (forall p, p <> loc -> get_block world b' p = get_block world b p) /\
    (block = None -> ne_exclude k exclude = true) /\
    (forall k0, block = Some k0 -> k = k0).
Proof.
  intros H. unfold _place, _place_with in H. unfold_m. simpl in H.
  destruct (decide (_inventory b = ∅)); [discriminate|].
  assert (Hk : forall k, match _inventory b !! k with
                         | Some n => put_bot (mkBot (_pos b)
                                       (if n =? 1 then delete k (_inventory b)
                                        else <[k := n - 1]> (_inventory b)) (_changes b)) ;;
                                     _set_block loc k
                         | None => raise KeyError
                         end b = (Ok tt, b') ->
               _pos b' = _pos b /\ is_Some (_inventory b !! k) /\
               get_block world b' loc = k /\
               (forall p, p <> loc -> get_block world b' p = get_block world b p)).
  { intros k Hk. destruct (_inventory b !! k) as [cnt|] eqn:E; [|discriminate].
    unfold_m. simpl in Hk. injection Hk as <-. simpl.
    split; [reflexivity|]. split; [eauto|]. unfold get_block; simpl. split.
    - rewrite lookup_insert_eq. reflexivity.
    - intros p Hp. rewrite lookup_insert_ne by congruence. reflexivity. }
  destruct block as [k|].
  - destruct (Hk k H) as (?&?&?&?). exists k. repeat split; auto; congruence.
  - destruct (first_key_not (_inventory b) exclude) as [k|] eqn:Ef; [|discriminate].
    destruct (Hk k H) as (?&?&?&?). exists k. repeat split; auto; [|discriminate].
    intros _. exact (proj2 (first_key_not_spec _ _ _ Ef)).
Qed.

Lemma place_none_success loc exclude b :
  _has_blocks_to_place b exclude = true -> exists b', _place loc exclude None b = (Ok tt, b').
Proof.
  intros Hh. pose proof (has_blocks_nonempty _ _ Hh) as Hne.
  apply has_blocks_first_key in Hh as [k Hk].
  destruct (first_key_not_spec _ _ _ Hk) as [[v Hv] _].
  unfold _place, _place_with. unfold_m. simpl.
  destruct (decide (_inventory b = ∅)); [contradiction|].
  rewrite Hk. simpl. rewrite Hv. simpl. eexists. reflexivity.
Qed.

Lemma place_none_fail loc exclude b :
  _has_blocks_to_place b exclude = false -> exists e, _place loc exclude None b = (Err e, b).
Proof.
  intros Hh. unfold _place, _place_with. unfold_m. simpl.
  destruct (decide (_inventory b = ∅)); [eauto|].
  destruct (first_key_not (_inventory b) exclude) eqn:Hk; [|eauto].
  assert (Hs : is_Some (first_key_not (_inventory b) exclude)) by eauto.
  apply has_blocks_first_key in Hs. congruence.
Qed.

Lemma place_changes_local loc exclude block b p :
  p <> loc -> _changes (snd (_place loc exclude block b)) !! p = _changes b !! p.
Proof.
  intros Hp. unfold _place, _place_with. unfold_m. simpl.
  destruct (decide (_inventory b = ∅)); [reflexivity|].
  assert (Hk : forall k, _changes (snd (match _inventory b !! k with
                         | Some n => put_bot (mkBot (_pos b)
                                       (if n =? 1 then delete k (_inventory b)
                                        else <[k := n - 1]> (_inventory b)) (_changes b)) ;;
                                     _set_block loc k
                         | None => raise KeyError
                         end b)) !! p = _changes b !! p).
  { intros k. destruct (_inventory b !! k); [|reflexivity].
    unfold_m. simpl. rewrite lookup_insert_ne by congruence. reflexivity. }
  destruct block as [k|]; [apply Hk|].
  destruct (first_key_not (_inventory b) exclude); [apply Hk|reflexivity].
Qed.

Lemma move_up_unfold exclude b :
  _move_up exclude b =
  _place_with _set_block_sum (_pos b) exclude None
    (mkBot (vadd (_pos b) (0, 1, 0)) (_inventory b) (_changes b)).
Proof.
  unfold _move_up. unfold_m. simpl.
  rewrite vadd_vadd. simpl. rewrite vadd_zero. reflexivity.
Qed.

(** [_place] at a computed location never writes the overlay. *)
Lemma place_sum_changes loc exclude block b :
  _changes (snd (_place_with _set_block_sum loc exclude block b)) = _changes b.
Proof.
  unfold _place_with. unfold_m. simpl.
  destruct (decide (_inventory b = ∅)); [reflexivity|].
  destruct block as [k|]; [|destruct (first_key_not (_inventory b) exclude) as [k|]];
    simpl; try reflexivity; destruct (_inventory b !! k); reflexivity.
Qed.

(** The fall loop of [_side_moves]: a landing [i] cells below [pos],
    on a block that is neither air nor lava. *)
Lemma fall_moves_landing world b pos k a :
  In a (fall_moves world b pos k) ->
  exists i, 0 <= i < Z.of_nat k /\ a = Act_move (vadd pos (0, 1 - i, 0)) /\
    in_blocks (get_block world b (vadd pos (0, - i, 0))) [_AIR; _LAVA] = false.
Proof.
  revert pos. induction k as [|k IH]; intros pos Ha; simpl in Ha; [destruct Ha|].
  destruct (Z.eqb_spec (get_block world b pos) _AIR) as [Hair|Hair]; simpl in Ha.
  - destruct (IH _ Ha) as (i & Hi & -> & Hb). exists (i + 1).
    rewrite !vadd_vadd in *. simpl in *.
    replace (0 + 0) with 0 in * by lia. replace (-1 + (1 - i)) with (1 - (i + 1)) by lia.
    replace (-1 + - i) with (- (i + 1)) in Hb by lia.
    split; [lia|]. split; [reflexivity|exact Hb].
  - destruct (Z.eqb_spec (get_block world b pos) _LAVA) as [Hl|Hl]; simpl in Ha; [destruct Ha|].
    destruct Ha as [<-|[]]. exists 0. split; [lia|]. split; [reflexivity|].
    simpl. rewrite vadd_zero. unfold in_blocks. simpl.
    destruct (Z.eqb_spec (get_block world b pos) _AIR); [contradiction|].
    destruct (Z.eqb_spec (get_block world b pos) _LAVA); [contradiction|]. reflexivity.
Qed.

End ExtraFacts.

Module SearchExtraFacts.
Import Search SearchFacts.

Section Closed.
Context {state action : Type} `{EqDecision state}.
Variable p : SearchProblem state action.
Variable fr : fringe state action.

(** States closed by the loop: each once, each reachable and not a goal. *)
Definition closed_ok (closed : list state) : Prop :=
  NoDup closed /\
  forall s, In s closed ->
    isGoalState p s = false /\ exists acts c, path p (getStartState p) acts s c.

Lemma loop_closed_ok fuel l closed :
  nodes_valid p l -> closed_ok closed ->
  closed_ok (snd (graph_search_loop p fr fuel l closed)).
Proof.
  revert l closed. induction fuel as [|fuel IH]; intros l closed Hv Hc; simpl; [exact Hc|].
  destruct l as [|n l']; [exact Hc|].
  destruct (isGoalState p (node_state n)) eqn:Hg; [exact Hc|].
  destruct (in_dec _ _ _) as [Hin|Hin].
  - apply IH; [|exact Hc]. intros m Hm. apply Hv. now right.
  - apply IH; [now apply nodes_valid_expand|].
    destruct Hc as [Hnd Hs]. split; [constructor; [|exact Hnd]; first [exact Hin|rewrite list_elem_of_In; exact Hin]|].
    intros s [<-|Hs']; [|now apply Hs].
    split; [exact Hg|]. do 2 eexists. apply Hv. now left.
Qed.

End Closed.

End SearchExtraFacts.

(* ================================================================== *)
(** ** Properties read off the code *)
(* ================================================================== *)

Module Extras.
Import Search SearchFacts SearchExtraFacts Bot BotFacts BotDemo ExtraFacts Singleton.
Open Scope Z_scope.

(** [_drops dist drop] is the ceiling of [dist / drop]: the least number
    of drops of length [drop] that cover [dist]. *)
Theorem X_drops_ceiling (dist drop : Z) :
  0 <= dist -> 0 < drop ->
  dist <= drop * _drops dist drop /\ drop * _drops dist drop < dist + drop.
Proof.
  intros Hd Hp. unfold _drops.
  pose proof (Z.div_mod dist drop ltac:(lia)) as Hdm.
  pose proof (Z.mod_pos_bound dist drop Hp) as Hb.
  destruct (Z.eqb_spec (dist mod drop) 0) as [H0|H0]; simpl; nia.
Qed.

Lemma X_drops_ceiling_witness : 5 <= 2 * _drops 5 2 /\ 2 * _drops 5 2 < 5 + 2.
Proof. exact (X_drops_ceiling 5 2 ltac:(lia) ltac:(lia)). Defined.

(** [_manhattan] on planar points is a metric: symmetric, non-negative,
    zero exactly on equal points, and it satisfies the triangle
    inequality. *)
Theorem X_manhattan_metric (p q r : Z * Z) :
  _manhattan p q = _manhattan q p /\ 0 <= _manhattan p q /\
  (_manhattan p q = 0 <-> p = q) /\
  _manhattan p r <= _manhattan p q + _manhattan q r.
Proof.
  destruct p as [a b], q as [c d], r as [e f]. unfold _manhattan. simpl.
  split; [lia|]. split; [lia|]. split; [|lia].
  split; [intros H; assert (a = c) by lia; assert (b = d) by lia; subst; reflexivity|].
  intros H. injection H as -> ->. lia.
Qed.

(** Away from the goal, [_mine_heuristic] is at least the planar
    Manhattan distance to the recorded block location, and equals it
    when the bot's [y] is that of the block or one below. *)
Theorem X_mine_heuristic_planar_bound (prob : MineProblem) (s : bot) :
  contains s (mp_block_id prob) = false ->
  let man := _manhattan (vx (_pos s), vz (_pos s)) (vx (mp_block_loc prob), vz (mp_block_loc prob)) in
  man <= _mine_heuristic s prob /\
  (vy (_pos s) - vy (mp_block_loc prob) = 0 \/ vy (_pos s) - vy (mp_block_loc prob) = -1 ->
   _mine_heuristic s prob = man).
Proof.
  intros Hc man. unfold _mine_heuristic. rewrite Hc. cbv zeta. fold man.
  generalize (vy (_pos s) - vy (mp_block_loc prob)). intros y0.
  unfold _drops, _DROP.
  repeat match goal with
         | |- context [if ?c then _ else _] =>
             lazymatch c with
             | context [if _ then _ else _] => fail
             | ?a <? ?b => destruct (Z.ltb_spec a b); cbn [negb]
             | ?a =? ?b => destruct (Z.eqb_spec a b); cbn [negb]
             | negb (?a =? ?b) => destruct (Z.eqb_spec a b); cbn [negb]
             end
         end; split; intros; try lia;
  pose proof (Z.div_pos (Z.abs y0) 2 (Z.abs_nonneg _) ltac:(lia)); lia.
Qed.

Lemma X_mine_heuristic_planar_bound_witness :
  _mine_heuristic b0 (mkMineProblem b0 (3, 0, 4) 14) = 7.
Proof.
  exact (proj2 (X_mine_heuristic_planar_bound (mkMineProblem b0 (3, 0, 4) 14) b0 eq_refl)
           (or_introl eq_refl)).
Defined.

(** The guard of the placement actions matches [_place]: with no forced
    block, [_place] succeeds exactly when [_has_blocks_to_place] holds,
    and otherwise it raises leaving the bot unchanged. *)
Theorem X_has_blocks_to_place_iff_place (loc : vec3) (exclude : option Z) (b : bot) :
  (_has_blocks_to_place b exclude = true <-> exists b', _place loc exclude None b = (Ok tt, b')) /\
  (_has_blocks_to_place b exclude = false -> exists e, _place loc exclude None b = (Err e, b)).
Proof.
  split; [split|].
  - apply place_none_success.
  - intros [b' Hb']. destruct (_has_blocks_to_place b exclude) eqn:Hh; [reflexivity|].
    destruct (place_none_fail loc _ _ Hh) as [e He]. congruence.
  - apply place_none_fail.
Qed.

(** A successful [_place] puts a block of the inventory at [loc], seen
    there through the bot's view; every other cell reads as before, the
    position is unchanged, the block is the forced one if any, and
    otherwise not the excluded one. *)
Theorem X_place_success_effect world loc exclude block b b' :
  _place loc exclude block b = (Ok tt, b') ->
  exists k, _pos b' = _pos b /\ is_Some (_inventory b !! k) /\
    get_block world b' loc = k /\
    (forall p, p <> loc -> get_block world b' p = get_block world b p) /\
    (block = None -> ne_exclude k exclude = true) /\
    (forall k0, block = Some k0 -> k = k0).
Proof. apply place_success. Qed.

Lemma X_place_success_effect_witness :
  get_block c3_world (mkBot (0, 0, 0) ∅ {[(1, 0, 0) := 14]}) (1, 0, 0) = 14.
Proof.
  assert (Hp : _place (1, 0, 0) None None (mkBot (0, 0, 0) {[14 := 1]} ∅) =
               (Ok tt, mkBot (0, 0, 0) ∅ {[(1, 0, 0) := 14]})) by (vm_compute; reflexivity).
  destruct (X_place_success_effect c3_world _ _ _ _ _ Hp) as (k & _ & _ & Hk & _ & Hne & _).
  rewrite Hk. vm_compute in Hk. symmetry. exact Hk.
Defined.

(** [_move_down] reads the cell below at a position computed with [+]:
    on an [_ImaginaryBot] it raises [TypeError] before any change. *)
Theorem X_move_down_raises world b :
  take_action world Act_move_down b = (Err TypeError, b).
Proof. reflexivity. Qed.



(** [take_actions] runs the actions in order: running [xs ++ ys] is
    running [xs] and, unless one of them raised, then [ys]; a raised
    exception stops the run and keeps the changes made before it. *)
Theorem X_take_actions_app world xs ys b :
  take_actions world (xs ++ ys) b =
  match take_actions world xs b with
  | (Ok _, b') => take_actions world ys b'
  | (Err e, b') => (Err e, b')
  end.
Proof.
  revert b. induction xs as [|a xs IH]; intros b; simpl; [reflexivity|].
  unfold_m. destruct (take_action world a b) as [[u|e] b']; [|reflexivity].
  apply IH.
Qed.

(** Every move in the list [_side_moves] builds for a direction goes to
    that lateral column, at most one cell up and at most [_DROP] cells
    down, and stands on a block that is neither air nor lava. *)
Theorem X_side_moves_landing world b d c a :
  In a (_side_moves_rtn world b d c) ->
  exists j q, a = Act_move q /\ q = vadd (vadd (_pos b) d) (0, j, 0) /\ - _DROP <= j <= 1 /\
    in_blocks (get_block world b (vadd q (0, -1, 0))) [_AIR; _LAVA] = false.
Proof.
  unfold _side_moves_rtn. cbv zeta. set (base := vadd (_pos b) d).
  intros Ha. apply in_app_iff in Ha as [Ha|Ha].
  - destruct (c && negb (in_blocks (get_block world b base) [_AIR; _LAVA; _WATER])) eqn:Hc;
      [|destruct Ha].
    destruct (forallb _ _); [|destruct Ha].
    destruct Ha as [<-|[]]. exists 1, (vadd base (0, 1, 0)).
    split; [reflexivity|]. split; [reflexivity|]. split; [unfold _DROP; lia|].
    rewrite vadd_vadd. simpl. rewrite vadd_zero.
    apply andb_prop in Hc as [_ Hc]. apply negb_true_iff in Hc.
    unfold in_blocks in *. simpl in *.
    destruct (get_block world b base =? _AIR); [discriminate|].
    destruct (get_block world b base =? _LAVA); [discriminate|]. reflexivity.
  - destruct (forallb _ _); [|destruct Ha].
    destruct (fall_moves_landing _ _ _ _ _ Ha) as (i & Hi & -> & Hl).
    unfold _DROP_PLUS_1 in Hi. simpl in Hi.
    exists (- i), (vadd base (0, - i, 0)). split.
    + f_equal. rewrite vadd_vadd. simpl. f_equal. f_equal. f_equal. lia.
    + split; [reflexivity|]. split; [unfold _DROP; lia|].
      replace (vadd (vadd base (0, - i, 0)) (0, -1, 0))
        with (vadd (vadd base (0, -1, 0)) (0, - i, 0)); [exact Hl|].
      rewrite !vadd_vadd. simpl. replace (-1 + - i) with (- i + -1) by lia. reflexivity.
Qed.

Lemma X_side_moves_landing_witness :
  exists j q, Act_move (1, 0, 0) = Act_move q /\ q = vadd (vadd (_pos b0) (1, 0, 0)) (0, j, 0) /\
    - _DROP <= j <= 1 /\
    in_blocks (get_block c3_world b0 (vadd q (0, -1, 0))) [_AIR; _LAVA] = false.
Proof.
  assert (H : In (Act_move (1, 0, 0)) (_side_moves_rtn c3_world b0 (1, 0, 0) false))
    by (vm_compute; left; reflexivity).
  exact (X_side_moves_landing c3_world b0 (1, 0, 0) false _ H).
Defined.

(** As written, [_side_moves] returns [None], so [get_legal_actions]
    raises [TypeError] for every bot, and so does
    [_MineProblem.getSuccessors]: no state ever has successors. *)
Theorem X_legal_actions_raise world b block :
  get_legal_actions world b block = Err TypeError /\
  mine_getSuccessors_with world (_get_move_actions world) b = Err TypeError.
Proof. split; reflexivity. Qed.

(** [_ImaginaryBot] actions change the overlay only at their target: a
    [_place] at its location; [_move], [_move_up], [_move_down] and
    [_mine] never change it. *)
Theorem X_action_overlay_local world a b p :
  (forall loc e blk, a = Act_place loc e blk -> p <> loc) ->
  _changes (snd (take_action world a b)) !! p = _changes b !! p.
Proof.
  intros Hpl. destruct a as [pos|e| |loc|loc e blk]; unfold take_action.
  - reflexivity.
  - rewrite move_up_unfold, place_sum_changes. reflexivity.
  - reflexivity.
  - rewrite mine_raises. reflexivity.
  - apply place_changes_local. exact (Hpl loc e blk eq_refl).
Qed.

Lemma X_action_overlay_local_witness :
  _changes (snd (take_action c3_world (Act_place (1, 0, 0) None None)
                   (mkBot (0, 0, 0) {[14 := 1]} ∅))) !! (2, 0, 0) = None.
Proof.
  exact (X_action_overlay_local c3_world (Act_place (1, 0, 0) None None)
           (mkBot (0, 0, 0) {[14 := 1]} ∅) (2, 0, 0)
           (fun loc e blk H => ltac:(injection H as <- _ _; discriminate))).
Defined.

(** [singleton]: calls raise as [func_or_class] does until one returns
    a value [v]; that call and every later one return [v], whatever
    their arguments, and the cache then holds just [v]. *)
Theorem X_singleton_caches_first_value {X E A : Type} (f : X -> E + A)
    (xs1 : list X) (x : X) (xs2 : list X) (v : A) :
  (forall y, In y xs1 -> exists e, f y = inl e) -> f x = inr v ->
  calls f [] (xs1 ++ x :: xs2) = (map f xs1 ++ inr v :: map (fun _ => inr v) xs2, [v]).
Proof.
  intros Hfail Hx.
  assert (Hc : forall ys, calls f [v] ys = (map (fun _ => inr v) ys, [v])).
  { induction ys as [|y ys IH]; simpl; [reflexivity|]. rewrite IH. reflexivity. }
  induction xs1 as [|y xs1 IH]; simpl.
  - rewrite Hx. simpl. rewrite Hc. reflexivity.
  - destruct (Hfail y (or_introl eq_refl)) as [e He]. rewrite He.
    rewrite IH by (intros z Hz; apply Hfail; now right). reflexivity.
Qed.

Lemma X_singleton_caches_first_value_witness :
  calls (fun n : nat => if Nat.eqb n 0 then inl tt else inr (n * 10)%nat) [] [0; 0; 3; 5]%nat =
  ([inl tt; inl tt; inr 30; inr 30]%nat, [30%nat]).
Proof.
  exact (X_singleton_caches_first_value
           (fun n : nat => if Nat.eqb n 0 then inl tt else inr (n * 10)%nat)
           [0; 0]%nat 3%nat [5%nat] 30%nat
           (fun y Hy => ltac:(destruct Hy as [<-|[<-|[]]]; exists tt; reflexivity))
           eq_refl).
Defined.

(** [graph_search] expands each state at most once: the closed set it
    builds has no duplicates, and every state in it is reachable from
    the start and is not a goal state (whatever the fringe). *)
Theorem X_graph_search_expands_once {state action : Type} `{EqDecision state}
    (p : SearchProblem state action) (fr : fringe state action) (fuel : nat) :
  let closed := snd (graph_search_loop p fr fuel (push fr (Root (getStartState p)) []) []) in
  NoDup closed /\
  forall s, In s closed ->
    isGoalState p s = false /\ exists acts c, path p (getStartState p) acts s c.
Proof.
  apply loop_closed_ok.
  - intros m Hm. apply push_In in Hm as [->|[]]. constructor.
  - split; [constructor|]. intros s [].
Qed.

End Extras.
